(** * Rate limiters: sliding window (task01) and throttling (task02)

    Shallow embedding of [SlidingWindowRateLimiter] (task01/main.py) and
    [ThrottlingRateLimiter] (task02/main.py).

    - Timestamps are the values returned by [time.time()].  The code is
      embedded twice.  In the first embedding they are exact rationals
      [Q] and the arithmetic of the two classes (one subtraction, one
      addition, comparisons) is exact: it carries the properties that do
      not depend on how a result is rounded.  The second embedding,
      [Float64], is the same code on binary64 numbers, rounded as Python
      rounds: it carries the properties that are about the values the
      code computes, and the inputs on which a property fails.
    - Every call of [time.time()] is an explicit argument of the method
      that performs it, in the order in which the reads happen.
      [record_message] of both classes reads the clock itself and then
      calls [can_send_message], which reads it again: it takes two
      readings.
    - The dictionaries are [gmap string _]; a deque is the list of its
      elements, oldest (leftmost) first. *)

From Stdlib Require Import QArith Qminmax Lqa Sorted DecimalString.
From Stdlib Require Floats.
From stdpp Require Import gmap strings list fin_maps.

Local Open Scope Q_scope.

(** ** Python values shared by the two classes *)

(** The exception the modelled statements can raise: [window[0]] on an
    empty deque. *)
Inductive exn : Type :=
| IndexError.

(** Outcome of a call: a returned value or a raised exception. *)
Inductive outcome (A : Type) : Type :=
| Returned (a : A)
| Raised (e : exn).
Arguments Returned {A} a.
Arguments Raised {A} e.

(** [max(a, b)] of Python on two numbers: the first argument unless the
    second is strictly greater. *)
Definition py_max (a b : Q) : Q :=
  if Qle_bool b a then a else b.

(** [len(window)] as an integer. *)
Definition len (window : list Q) : Z := Z.of_nat (length window).

(** ** task01: SlidingWindowRateLimiter *)

Module SlidingWindowRateLimiter.

Record t : Type := mk {
  window_size : Q;
  max_requests : Z;
  user_windows : gmap string (list Q)
}.

(** [__init__]: three assignments, nothing is checked. *)
Definition __init__ (window_size : Q) (max_requests : Z) : outcome t :=
  Returned (mk window_size max_requests ∅).

Definition set_user_windows (self : t) (m : gmap string (list Q)) : t :=
  mk (window_size self) (max_requests self) m.

(** The loop [while window and window[0] <= cutoff: window.popleft()]. *)
Fixpoint popleft_while (cutoff : Q) (window : list Q) : list Q :=
  match window with
  | [] => []
  | oldest :: rest =>
      if Qle_bool oldest cutoff then popleft_while cutoff rest else window
  end.

Definition _cleanup_window (self : t) (user_id : string) (current_time : Q) : t :=
  match user_windows self !! user_id with
  | None => self
  | Some window =>
      let cutoff := current_time - window_size self in
      match popleft_while cutoff window with
      | [] => set_user_windows self (delete user_id (user_windows self))
      | window' => set_user_windows self (<[user_id := window']> (user_windows self))
      end
  end.

(** [now] is the reading of [time.time()] made by the method. *)
Definition can_send_message (self : t) (user_id : string) (now : Q) : bool * t :=
  let self := _cleanup_window self user_id now in
  match user_windows self !! user_id with
  | None => (true, self)
  | Some window =>
      if (len window <? max_requests self)%Z then (true, self) else (false, self)
  end.

(** [now] is read by [record_message] itself, [now'] by the nested call
    of [can_send_message]. *)
Definition record_message (self : t) (user_id : string) (now now' : Q) : bool * t :=
  let self := _cleanup_window self user_id now in
  let '(allowed, self) := can_send_message self user_id now' in
  if allowed then
    let window :=
      match user_windows self !! user_id with
      | None => []
      | Some window => window
      end in
    (true, set_user_windows self (<[user_id := window ++ [now]]> (user_windows self)))
  else (false, self).

Definition time_until_next_allowed (self : t) (user_id : string) (now : Q)
  : outcome Q * t :=
  let self := _cleanup_window self user_id now in
  match user_windows self !! user_id with
  | None => (Returned 0, self)
  | Some window =>
      if (len window <? max_requests self)%Z then (Returned 0, self)
      else
        match window with
        | [] => (Raised IndexError, self)
        | oldest :: _ =>
            let wait := oldest + window_size self - now in
            (Returned (py_max wait 0), self)
        end
  end.

End SlidingWindowRateLimiter.

(** ** task02: ThrottlingRateLimiter *)

Module ThrottlingRateLimiter.

Record t : Type := mk {
  min_interval : Q;
  last_message_time : gmap string Q
}.

Definition __init__ (min_interval : Q) : outcome t :=
  Returned (mk min_interval ∅).

Definition can_send_message (self : t) (user_id : string) (now : Q) : bool :=
  match last_message_time self !! user_id with
  | None => true
  | Some last_time =>
      if Qle_bool (min_interval self) (now - last_time) then true else false
  end.

(** [now] is read by [record_message] itself, [now'] by the nested call
    of [can_send_message]. *)
Definition record_message (self : t) (user_id : string) (now now' : Q) : bool * t :=
  if can_send_message self user_id now' then
    (true, mk (min_interval self) (<[user_id := now]> (last_message_time self)))
  else (false, self).

Definition time_until_next_allowed (self : t) (user_id : string) (now : Q) : Q :=
  match last_message_time self !! user_id with
  | None => 0
  | Some last_time =>
      let elapsed := now - last_time in
      let wait := min_interval self - elapsed in
      py_max wait 0
  end.

End ThrottlingRateLimiter.

(** ** Runs of a sliding-window limiter

    A caller is a sequence of method calls; each call carries the clock
    readings it makes. *)

Module Run.
Import SlidingWindowRateLimiter.

Inductive op : Type :=
| CanSend (user_id : string) (now : Q)
| RecordMessage (user_id : string) (now now' : Q)
| TimeUntil (user_id : string) (now : Q).

Inductive response : Type :=
| RBool (b : bool)
| RWait (w : outcome Q).

Definition step (self : t) (o : op) : response * t :=
  match o with
  | CanSend u now =>
      let '(b, self') := can_send_message self u now in (RBool b, self')
  | RecordMessage u now now' =>
      let '(b, self') := record_message self u now now' in (RBool b, self')
  | TimeUntil u now =>
      let '(w, self') := time_until_next_allowed self u now in (RWait w, self')
  end.

(** The limiter after a sequence of calls. *)
Fixpoint exec (self : t) (ops : list op) : t :=
  match ops with
  | [] => self
  | o :: rest => exec (snd (step self o)) rest
  end.

(** The clock readings of a call, in the order they are made. *)
Definition readings_of (o : op) : list Q :=
  match o with
  | CanSend _ now => [now]
  | RecordMessage _ now now' => [now; now']
  | TimeUntil _ now => [now]
  end.

Definition readings (ops : list op) : list Q := flat_map readings_of ops.

(** A clock that never goes back: every reading is at least the one
    before it; [c] is the last reading made so far. *)
Fixpoint monotone_from (c : Q) (ts : list Q) : Prop :=
  match ts with
  | [] => True
  | t0 :: rest => c <= t0 /\ monotone_from t0 rest
  end.

Definition monotone_clock (ts : list Q) : Prop :=
  match ts with
  | [] => True
  | t0 :: rest => monotone_from t0 rest
  end.

(** What an auditor of identity [user_id] writes down: the timestamp of
    every call of [record_message user_id] that returned [True]. *)
Definition logged (user_id : string) (o : op) (r : response) : list Q :=
  match o, r with
  | RecordMessage u now _, RBool true =>
      if decide (u = user_id) then [now] else []
  | _, _ => []
  end.

Fixpoint accepted (self : t) (ops : list op) (user_id : string) : list Q :=
  match ops with
  | [] => []
  | o :: rest =>
      let '(r, self') := step self o in
      logged user_id o r ++ accepted self' rest user_id
  end.

(** Number of timestamps in the half-open interval [(lo, hi]]. *)
Definition count_in (lo hi : Q) (ts : list Q) : Z :=
  len (List.filter (fun x => negb (Qle_bool x lo) && Qle_bool x hi) ts).

(** Number of timestamps later than [lo]. *)
Definition count_after (lo : Q) (ts : list Q) : Z :=
  len (List.filter (fun x => negb (Qle_bool x lo)) ts).



End Run.

(** ** Predicates on stores *)

Import SlidingWindowRateLimiter.

(** The sequence kept for an identity, empty when the identity is absent. *)
Definition window_of (self : t) (user_id : string) : list Q :=
  match user_windows self !! user_id with
  | None => []
  | Some window => window
  end.

(** No identity is mapped to an empty deque. *)
Definition no_empty_window (self : t) : Prop :=
  forall user_id, user_windows self !! user_id <> Some [].

(** Oldest first: every deque is in non-decreasing order. *)
Definition sorted_windows (self : t) : Prop :=
  forall user_id, StronglySorted Qle (window_of self user_id).

(** No stored timestamp is later than the clock reading [c]. *)
Definition not_after (c : Q) (self : t) : Prop :=
  forall user_id, Forall (fun x => x <= c) (window_of self user_id).

(** No deque is longer than the quota (a fresh identity is always let in
    once, whatever the quota). *)
Definition within_quota (self : t) : Prop :=
  forall user_id, (len (window_of self user_id) <= Z.max 1 (max_requests self))%Z.

(** What remains of a window at cutoff [cutoff]: the timestamps strictly
    later than it. *)
Definition unexpired (cutoff : Q) (window : list Q) : list Q :=
  List.filter (fun x => negb (Qle_bool x cutoff)) window.

(** The test of [can_send_message] on a pruned store. *)
Definition under_limit (self : t) (user_id : string) : bool :=
  match user_windows self !! user_id with
  | None => true
  | Some window => (len window <? max_requests self)%Z
  end.

(** The value [time_until_next_allowed] computes on a pruned store. *)
Definition wait_of (self : t) (user_id : string) (now : Q) : Q :=
  match user_windows self !! user_id with
  | None => 0
  | Some window =>
      if (len window <? max_requests self)%Z then 0
      else match window with
           | [] => 0
           | oldest :: _ => py_max (oldest + window_size self - now) 0
           end
  end.

(** ** States used in the worked examples *)

(** [window_size = 10], [max_requests = 1], identity "u" accepted at time 0. *)
Definition sw_one_at_0 : t := mk 10 1 (<["u" := [0]%Q]> ∅).

(** [window_size = 10], [max_requests = 2], deque of "u" holding 0, 5 and 7. *)
Definition sw_three : t := mk 10 2 (<["u" := [0; 5; 7]%Q]> ∅).

(** [min_interval = 10], identity "u" accepted at time 0. *)
Definition th_one_at_0 : ThrottlingRateLimiter.t :=
  ThrottlingRateLimiter.mk 10 (<["u" := 0%Q]> ∅).

(** ** Runs of a throttling limiter *)

Module ThrottleRun.
Import ThrottlingRateLimiter.

Inductive op : Type :=
| CanSend (user_id : string) (now : Q)
| RecordMessage (user_id : string) (now now' : Q)
| TimeUntil (user_id : string) (now : Q).

Inductive response : Type :=
| RBool (b : bool)
| RWait (w : Q).

(** [can_send_message] and [time_until_next_allowed] assign nothing. *)
Definition step (self : t) (o : op) : response * t :=
  match o with
  | CanSend u now => (RBool (can_send_message self u now), self)
  | RecordMessage u now now' =>
      let '(b, self') := record_message self u now now' in (RBool b, self')
  | TimeUntil u now => (RWait (time_until_next_allowed self u now), self)
  end.

Fixpoint exec (self : t) (ops : list op) : t :=
  match ops with
  | [] => self
  | o :: rest => exec (snd (step self o)) rest
  end.

(** The two readings of every call of [record_message user_id] that
    returned [True], in the order of the calls. *)
Definition logged (user_id : string) (o : op) (r : response) : list (Q * Q) :=
  match o, r with
  | RecordMessage u now now', RBool true =>
      if decide (u = user_id) then [(now, now')] else []
  | _, _ => []
  end.

Fixpoint accepted (self : t) (ops : list op) (user_id : string) : list (Q * Q) :=
  match ops with
  | [] => []
  | o :: rest =>
      let '(r, self') := step self o in
      logged user_id o r ++ accepted self' rest user_id
  end.

(** Every accepted call checks the clock at least [min_interval] after
    the timestamp kept from the accepted call before it; [prev] is the
    timestamp kept before the first call, if any. *)
Fixpoint spaced (min_interval : Q) (prev : option Q) (calls : list (Q * Q)) : Prop :=
  match calls with
  | [] => True
  | (now, now') :: rest =>
      match prev with
      | None => True
      | Some last_time => min_interval <= now' - last_time
      end /\ spaced min_interval (Some now) rest
  end.

(** The timestamp kept after the calls [calls] were accepted. *)
Definition kept (prev : option Q) (calls : list (Q * Q)) : option Q :=
  List.last (List.map (fun c => Some (fst c)) calls) prev.

End ThrottleRun.

(** ** The demonstration drivers [test_rate_limiter] and [test_throttling_limiter]

    The drivers read the clock only through the limiter; [clock k] is
    the value of the [k]-th call of [time.time()] of a run, counted from
    zero.  [time.sleep] lets time pass and does nothing else: it shows in
    the values of [clock] only.  A printed line is modelled by its
    fields; the layout of the text is not. *)

Module Demo.

(** [str(n)] for a non-negative integer. *)
Definition str (n : nat) : string := NilZero.string_of_uint (Nat.to_uint n).

(** [str(message_id % 5 + 1)]. *)
Definition user_of (message_id : nat) : string := str (message_id mod 5 + 1).

(** The status shown for a message: the tick, or the cross with the time
    to wait. *)
Inductive status : Type :=
| Sent
| Wait (wait_time : Q).

Record line : Type := mk_line {
  message_id : nat;
  user_id : string;
  shown : status
}.

(** One turn of the loop over a sliding-window limiter, the clock having
    been read [k] times before. *)
Definition sliding_turn (clock : nat -> Q) (k : nat)
    (limiter : SlidingWindowRateLimiter.t) (message_id : nat)
  : outcome (line * SlidingWindowRateLimiter.t) :=
  let user_id := user_of message_id in
  let '(result, limiter) :=
    SlidingWindowRateLimiter.record_message limiter user_id (clock k) (clock (k + 1)%nat) in
  match SlidingWindowRateLimiter.time_until_next_allowed limiter user_id (clock (k + 2)%nat) with
  | (Raised e, _) => Raised e
  | (Returned wait_time, limiter) =>
      Returned (mk_line message_id user_id (if result then Sent else Wait wait_time),
                limiter)
  end.

Fixpoint sliding_series (clock : nat -> Q) (k : nat)
    (limiter : SlidingWindowRateLimiter.t) (message_ids : list nat)
  : outcome (list line * SlidingWindowRateLimiter.t) :=
  match message_ids with
  | [] => Returned ([], limiter)
  | message_id :: rest =>
      match sliding_turn clock k limiter message_id with
      | Raised e => Raised e
      | Returned (shown_line, limiter) =>
          match sliding_series clock (k + 3) limiter rest with
          | Raised e => Raised e
          | Returned (lines, limiter) => Returned (shown_line :: lines, limiter)
          end
      end
  end.

(** [test_rate_limiter]: the lines of the two series, in order. *)
Definition test_rate_limiter (clock : nat -> Q) : outcome (list line) :=
  match SlidingWindowRateLimiter.__init__ 10 1 with
  | Raised e => Raised e
  | Returned limiter =>
      match sliding_series clock 0 limiter (seq 1 10) with
      | Raised e => Raised e
      | Returned (first, limiter) =>
          match sliding_series clock 30 limiter (seq 11 10) with
          | Raised e => Raised e
          | Returned (second, _) => Returned (first ++ second)
          end
      end
  end.

(** One turn of the loop over a throttling limiter. *)
Definition throttling_turn (clock : nat -> Q) (k : nat)
    (limiter : ThrottlingRateLimiter.t) (message_id : nat)
  : line * ThrottlingRateLimiter.t :=
  let user_id := user_of message_id in
  let '(result, limiter) :=
    ThrottlingRateLimiter.record_message limiter user_id (clock k) (clock (k + 1)%nat) in
  let wait_time :=
    ThrottlingRateLimiter.time_until_next_allowed limiter user_id (clock (k + 2)%nat) in
  (mk_line message_id user_id (if result then Sent else Wait wait_time), limiter).

Fixpoint throttling_series (clock : nat -> Q) (k : nat)
    (limiter : ThrottlingRateLimiter.t) (message_ids : list nat)
  : list line * ThrottlingRateLimiter.t :=
  match message_ids with
  | [] => ([], limiter)
  | message_id :: rest =>
      let '(shown_line, limiter) := throttling_turn clock k limiter message_id in
      let '(lines, limiter) := throttling_series clock (k + 3) limiter rest in
      (shown_line :: lines, limiter)
  end.

(** [test_throttling_limiter]: the lines of the two series, in order. *)
Definition test_throttling_limiter (clock : nat -> Q) : outcome (list line) :=
  match ThrottlingRateLimiter.__init__ 10 with
  | Raised e => Raised e
  | Returned limiter =>
      let '(first, limiter) := throttling_series clock 0 limiter (seq 1 10) in
      let '(second, _) := throttling_series clock 30 limiter (seq 11 10) in
      Returned (first ++ second)
  end.

(** A clock that never goes back. *)
Definition monotone (clock : nat -> Q) : Prop :=
  forall k, clock k <= clock (S k).

End Demo.

(** * The two classes in binary64 arithmetic

    The modules above take the arithmetic of the classes exact.  Python
    computes on binary64 floats, and the three expressions
    [current_time - self.window_size], [oldest + self.window_size - now]
    and [self.min_interval - (now - last_time)] round.  [Float64] is the
    same code over the binary64 numbers of the kernel ([PrimFloat]):
    [PrimFloat.sub] and [PrimFloat.add] round to nearest even as Python's
    [-] and [+] do, and [PrimFloat.leb] and [PrimFloat.ltb] are its [<=]
    and [<] (false when an operand is not a number).  [window_size] is
    held as the float its integer is converted to by the mixed
    operations. *)

Module Float64.

(** [max(a, b)] of Python on two floats: [a] unless [b > a]. *)
Definition py_max (a b : PrimFloat.float) : PrimFloat.float :=
  if PrimFloat.ltb a b then b else a.

(** [len(window)] as an integer. *)
Definition len (window : list PrimFloat.float) : Z := Z.of_nat (length window).

Module SlidingWindowRateLimiter.

Record t : Type := mk {
  window_size : PrimFloat.float;
  max_requests : Z;
  user_windows : gmap string (list PrimFloat.float)
}.

Definition __init__ (window_size : PrimFloat.float) (max_requests : Z) : outcome t :=
  Returned (mk window_size max_requests ∅).

Definition set_user_windows (self : t) (m : gmap string (list PrimFloat.float)) : t :=
  mk (window_size self) (max_requests self) m.

(** The loop [while window and window[0] <= cutoff: window.popleft()]. *)
Fixpoint popleft_while (cutoff : PrimFloat.float) (window : list PrimFloat.float)
  : list PrimFloat.float :=
  match window with
  | [] => []
  | oldest :: rest =>
      if PrimFloat.leb oldest cutoff then popleft_while cutoff rest else window
  end.

Definition _cleanup_window (self : t) (user_id : string) (current_time : PrimFloat.float) : t :=
  match user_windows self !! user_id with
  | None => self
  | Some window =>
      let cutoff := PrimFloat.sub current_time (window_size self) in
      match popleft_while cutoff window with
      | [] => set_user_windows self (delete user_id (user_windows self))
      | window' => set_user_windows self (<[user_id := window']> (user_windows self))
      end
  end.

Definition can_send_message (self : t) (user_id : string) (now : PrimFloat.float)
  : bool * t :=
  let self := _cleanup_window self user_id now in
  match user_windows self !! user_id with
  | None => (true, self)
  | Some window =>
      if (len window <? max_requests self)%Z then (true, self) else (false, self)
  end.

(** [now] is read by [record_message] itself, [now'] by the nested call
    of [can_send_message]. *)
Definition record_message (self : t) (user_id : string) (now now' : PrimFloat.float)
  : bool * t :=
  let self := _cleanup_window self user_id now in
  let '(allowed, self) := can_send_message self user_id now' in
  if allowed then
    let window :=
      match user_windows self !! user_id with
      | None => []
      | Some window => window
      end in
    (true, set_user_windows self (<[user_id := window ++ [now]]> (user_windows self)))
  else (false, self).

Definition time_until_next_allowed (self : t) (user_id : string) (now : PrimFloat.float)
  : outcome PrimFloat.float * t :=
  let self := _cleanup_window self user_id now in
  match user_windows self !! user_id with
  | None => (Returned PrimFloat.zero, self)
  | Some window =>
      if (len window <? max_requests self)%Z then (Returned PrimFloat.zero, self)
      else
        match window with
        | [] => (Raised IndexError, self)
        | oldest :: _ =>
            let wait := PrimFloat.sub (PrimFloat.add oldest (window_size self)) now in
            (Returned (py_max wait PrimFloat.zero), self)
        end
  end.

End SlidingWindowRateLimiter.

Module ThrottlingRateLimiter.

Record t : Type := mk {
  min_interval : PrimFloat.float;
  last_message_time : gmap string PrimFloat.float
}.

Definition __init__ (min_interval : PrimFloat.float) : outcome t :=
  Returned (mk min_interval ∅).

Definition can_send_message (self : t) (user_id : string) (now : PrimFloat.float) : bool :=
  match last_message_time self !! user_id with
  | None => true
  | Some last_time =>
      if PrimFloat.leb (min_interval self) (PrimFloat.sub now last_time) then true else false
  end.

Definition record_message (self : t) (user_id : string) (now now' : PrimFloat.float)
  : bool * t :=
  if can_send_message self user_id now' then
    (true, mk (min_interval self) (<[user_id := now]> (last_message_time self)))
  else (false, self).

Definition time_until_next_allowed (self : t) (user_id : string) (now : PrimFloat.float)
  : PrimFloat.float :=
  match last_message_time self !! user_id with
  | None => PrimFloat.zero
  | Some last_time =>
      let elapsed := PrimFloat.sub now last_time in
      let wait := PrimFloat.sub (min_interval self) elapsed in
      py_max wait PrimFloat.zero
  end.

End ThrottlingRateLimiter.

(** The sequence kept for an identity, empty when the identity is absent. *)
Definition window_of (self : SlidingWindowRateLimiter.t) (user_id : string)
  : list PrimFloat.float :=
  match SlidingWindowRateLimiter.user_windows self !! user_id with
  | None => []
  | Some window => window
  end.

(** The timestamps of a window that are not [<= cutoff]. *)
Definition unexpired (cutoff : PrimFloat.float) (window : list PrimFloat.float)
  : list PrimFloat.float :=
  List.filter (fun x => negb (PrimFloat.leb x cutoff)) window.

(** [a <= b] holds as Python evaluates it. *)
Definition le (a b : PrimFloat.float) : Prop := PrimFloat.leb a b = true.

(** Oldest first: the deque is in non-decreasing order. *)
Definition sorted (window : list PrimFloat.float) : Prop := StronglySorted le window.

(** Every deque is in non-decreasing order. *)
Definition sorted_windows (self : SlidingWindowRateLimiter.t) : Prop :=
  forall user_id, sorted (window_of self user_id).

(** No stored timestamp is later than the clock reading [c]. *)
Definition not_after (c : PrimFloat.float) (self : SlidingWindowRateLimiter.t) : Prop :=
  forall user_id, Forall (fun x => le x c) (window_of self user_id).

(** Calls on a sliding-window limiter, with the clock readings they make. *)
Inductive op : Type :=
| CanSend (user_id : string) (now : PrimFloat.float)
| RecordMessage (user_id : string) (now now' : PrimFloat.float)
| TimeUntil (user_id : string) (now : PrimFloat.float).

Definition step (self : SlidingWindowRateLimiter.t) (o : op) : SlidingWindowRateLimiter.t :=
  match o with
  | CanSend u now => snd (SlidingWindowRateLimiter.can_send_message self u now)
  | RecordMessage u now now' => snd (SlidingWindowRateLimiter.record_message self u now now')
  | TimeUntil u now => snd (SlidingWindowRateLimiter.time_until_next_allowed self u now)
  end.

Fixpoint exec (self : SlidingWindowRateLimiter.t) (ops : list op) : SlidingWindowRateLimiter.t :=
  match ops with
  | [] => self
  | o :: rest => exec (step self o) rest
  end.

Definition readings_of (o : op) : list PrimFloat.float :=
  match o with
  | CanSend _ now => [now]
  | RecordMessage _ now now' => [now; now']
  | TimeUntil _ now => [now]
  end.

Definition readings (ops : list op) : list PrimFloat.float := flat_map readings_of ops.

(** A clock that never goes back, [c] being the reading before the first. *)
Fixpoint monotone_from (c : PrimFloat.float) (ts : list PrimFloat.float) : Prop :=
  match ts with
  | [] => True
  | t0 :: rest => le c t0 /\ monotone_from t0 rest
  end.

Definition monotone_clock (ts : list PrimFloat.float) : Prop :=
  match ts with
  | [] => True
  | t0 :: rest => le t0 t0 /\ monotone_from t0 rest
  end.

(** ** Values of the worked examples *)

Import PrimFloat.

(** 0.1, 0.2, 0.4, 0.5, 1.2, 9.5 and 9.9 as Python reads these literals. *)
Definition f0_1 : PrimFloat.float := 0x1.999999999999ap-4%float.
Definition f0_2 : PrimFloat.float := 0x1.999999999999ap-3%float.
Definition f0_4 : PrimFloat.float := 0x1.999999999999ap-2%float.
Definition f0_5 : PrimFloat.float := 0x1p-1%float.
Definition f1_2 : PrimFloat.float := 0x1.3333333333333p+0%float.
Definition f9_5 : PrimFloat.float := 0x1.3p+3%float.
Definition f9_9 : PrimFloat.float := 0x1.3cccccccccccdp+3%float.
Definition f1 : PrimFloat.float := 0x1p+0%float.
Definition f5 : PrimFloat.float := 0x1.4p+2%float.
Definition f7 : PrimFloat.float := 0x1.cp+2%float.
Definition f10 : PrimFloat.float := 0x1.4p+3%float.

(** [window_size = 0.1], [max_requests = 1], identity "u" accepted at 9.9. *)
Definition sw_tenth : SlidingWindowRateLimiter.t :=
  SlidingWindowRateLimiter.mk f0_1 1 (<["u" := [f9_9]]> ∅).

(** [window_size = 1], [max_requests = 1], identity "u" accepted at 0.2. *)
Definition sw_unit : SlidingWindowRateLimiter.t :=
  SlidingWindowRateLimiter.mk f1 1 (<["u" := [f0_2]]> ∅).

(** [window_size = 10], [max_requests = 2], deque of "u" holding 0, 5 and 7. *)
Definition sw_three : SlidingWindowRateLimiter.t :=
  SlidingWindowRateLimiter.mk f10 2 (<["u" := [PrimFloat.zero; f5; f7]]> ∅).

(** [min_interval = 0.4], identity "u" accepted at 0.1. *)
Definition th_tie : ThrottlingRateLimiter.t :=
  ThrottlingRateLimiter.mk f0_4 (<["u" := f0_1]> ∅).


End Float64.

(** * Properties *)

(** ** Comparisons and [py_max] *)

Lemma Qle_bool_true (a b : Q) : Qle_bool a b = true <-> a <= b.
Proof. apply Qle_bool_iff. Qed.

Lemma Qle_bool_false (a b : Q) : Qle_bool a b = false <-> b < a.
Proof.
  split; intros H.
  - apply Qnot_le_lt. intros Hle. apply Qle_bool_iff in Hle. congruence.
  - destruct (Qle_bool a b) eqn:E; [|reflexivity].
    apply Qle_bool_iff in E. lra.
Qed.

Ltac qcases :=
  repeat match goal with
  | H : Qle_bool _ _ = true |- _ => apply Qle_bool_true in H
  | H : Qle_bool _ _ = false |- _ => apply Qle_bool_false in H
  end.

Lemma py_max_nonneg (a : Q) : 0 <= py_max a 0.
Proof. unfold py_max. destruct (Qle_bool 0 a) eqn:E; qcases; lra. Qed.

Lemma py_max_pos (a : Q) : 0 < a -> py_max a 0 = a.
Proof.
  intros H. unfold py_max. destruct (Qle_bool 0 a) eqn:E; qcases; [reflexivity | lra].
Qed.

Lemma py_max_zero_iff (a : Q) : py_max a 0 == 0 <-> a <= 0.
Proof.
  unfold py_max. destruct (Qle_bool 0 a) eqn:E; qcases; split; intros; lra.
Qed.


(** ** The pruning loop *)

Section Popleft.
Import SlidingWindowRateLimiter.

Lemma popleft_while_head (cutoff : Q) (window : list Q) (x : Q) (rest : list Q) :
  popleft_while cutoff window = x :: rest -> cutoff < x.
Proof.
  induction window as [|y w IH]; simpl; [discriminate|].
  destruct (Qle_bool y cutoff) eqn:E; [exact IH|].
  intros [= -> _]. qcases. exact E.
Qed.

Lemma popleft_while_length (cutoff : Q) (window : list Q) :
  (len (popleft_while cutoff window) <= len window)%Z.
Proof.
  unfold len. induction window as [|y w IH]; simpl; [lia|].
  destruct (Qle_bool y cutoff); simpl in *; lia.
Qed.


(** Pruning at an earlier cutoff and then at a later one is pruning at
    the later one. *)
Lemma popleft_while_twice (c1 c2 : Q) (window : list Q) :
  c1 <= c2 ->
  popleft_while c2 (popleft_while c1 window) = popleft_while c2 window.
Proof.
  intros Hc. induction window as [|y w IH]; simpl; [reflexivity|].
  destruct (Qle_bool y c1) eqn:E1.
  - rewrite IH. qcases.
    assert (E2 : Qle_bool y c2 = true) by (apply Qle_bool_true; lra).
    rewrite E2. reflexivity.
  - reflexivity.
Qed.

(** On a deque in non-decreasing order the loop removes exactly the
    timestamps that are not later than the cutoff. *)
Lemma popleft_while_sorted (cutoff : Q) (window : list Q) :
  StronglySorted Qle window ->
  popleft_while cutoff window = unexpired cutoff window.
Proof.
  unfold unexpired.
  induction 1 as [|y w Hs IH Hall]; simpl; [reflexivity|].
  destruct (Qle_bool y cutoff) eqn:E; simpl; [exact IH|].
  f_equal. clear IH Hs. qcases.
  induction Hall as [|z w Hz Hall IH]; simpl; [reflexivity|].
  assert (Ez : Qle_bool z cutoff = false) by (apply Qle_bool_false; lra).
  rewrite Ez. simpl. f_equal. exact IH.
Qed.

Lemma popleft_while_count_after (cutoff lo : Q) (window : list Q) :
  cutoff <= lo ->
  Run.count_after lo (popleft_while cutoff window) = Run.count_after lo window.
Proof.
  intros Hc. unfold Run.count_after.
  induction window as [|y w IH]; simpl; [reflexivity|].
  destruct (Qle_bool y cutoff) eqn:E; [|reflexivity].
  rewrite IH. qcases.
  assert (E2 : Qle_bool y lo = true) by (apply Qle_bool_true; lra).
  rewrite E2. reflexivity.
Qed.

Lemma popleft_while_sorted_inv (cutoff : Q) (window : list Q) :
  StronglySorted Qle window -> StronglySorted Qle (popleft_while cutoff window).
Proof.
  induction 1 as [|y w Hs IH Hall]; simpl; [constructor|].
  destruct (Qle_bool y cutoff); [exact IH | constructor; assumption].
Qed.

Lemma popleft_while_Forall (P : Q -> Prop) (cutoff : Q) (window : list Q) :
  Forall P window -> Forall P (popleft_while cutoff window).
Proof.
  induction 1 as [|y w Hy Hall IH]; simpl; [constructor|].
  destruct (Qle_bool y cutoff); [exact IH | constructor; assumption].
Qed.

End Popleft.

(** ** [_cleanup_window] and the three methods of the sliding window *)

Section SlidingWindow.
Import SlidingWindowRateLimiter.

Lemma limiter_ext (a b : t) :
  window_size a = window_size b ->
  max_requests a = max_requests b ->
  (forall u, user_windows a !! u = user_windows b !! u) ->
  a = b.
Proof.
  destruct a as [wa ma sa], b as [wb mb sb]; simpl.
  intros -> -> H. f_equal. apply map_eq. exact H.
Qed.

Lemma cleanup_window_size self u c :
  window_size (_cleanup_window self u c) = window_size self.
Proof.
  unfold _cleanup_window. destruct (user_windows self !! u); [|reflexivity].
  destruct (popleft_while _ _); reflexivity.
Qed.

Lemma cleanup_max_requests self u c :
  max_requests (_cleanup_window self u c) = max_requests self.
Proof.
  unfold _cleanup_window. destruct (user_windows self !! u); [|reflexivity].
  destruct (popleft_while _ _); reflexivity.
Qed.

Lemma cleanup_lookup self u c :
  user_windows (_cleanup_window self u c) !! u =
  match popleft_while (c - window_size self) (window_of self u) with
  | [] => None
  | window => Some window
  end.
Proof.
  unfold _cleanup_window, window_of.
  destruct (user_windows self !! u) as [w|] eqn:E; simpl.
  - destruct (popleft_while _ w) as [|x r]; simpl.
    + apply lookup_delete_eq.
    + apply lookup_insert_eq.
  - exact E.
Qed.

Lemma cleanup_lookup_ne self u v c :
  u <> v ->
  user_windows (_cleanup_window self u c) !! v = user_windows self !! v.
Proof.
  intros Hne. unfold _cleanup_window.
  destruct (user_windows self !! u) as [w|]; [|reflexivity].
  destruct (popleft_while _ w); simpl.
  - apply lookup_delete_ne. exact Hne.
  - apply lookup_insert_ne. exact Hne.
Qed.

Lemma cleanup_window_of self u c :
  window_of (_cleanup_window self u c) u =
  popleft_while (c - window_size self) (window_of self u).
Proof.
  unfold window_of at 1. rewrite cleanup_lookup.
  destruct (popleft_while _ _); reflexivity.
Qed.

Lemma cleanup_window_of_ne self u v c :
  u <> v -> window_of (_cleanup_window self u c) v = window_of self v.
Proof.
  intros Hne. unfold window_of. rewrite cleanup_lookup_ne by exact Hne. reflexivity.
Qed.

(** After pruning an identity is never mapped to an empty deque, and a
    deque that is kept starts with an unexpired timestamp. *)
Lemma cleanup_lookup_Some self u c window :
  user_windows (_cleanup_window self u c) !! u = Some window ->
  exists oldest rest, window = oldest :: rest /\ c - window_size self < oldest.
Proof.
  rewrite cleanup_lookup.
  destruct (popleft_while _ _) as [|x r] eqn:E; [discriminate|].
  intros [= <-]. exists x, r. split; [reflexivity|].
  eapply popleft_while_head. exact E.
Qed.

Lemma cleanup_twice self u c1 c2 :
  c1 <= c2 ->
  _cleanup_window (_cleanup_window self u c1) u c2 = _cleanup_window self u c2.
Proof.
  intros Hc. apply limiter_ext.
  - rewrite !cleanup_window_size. reflexivity.
  - rewrite !cleanup_max_requests. reflexivity.
  - intros v. destruct (decide (u = v)) as [<-|Hne].
    + rewrite !cleanup_lookup, cleanup_window_of, cleanup_window_size.
      rewrite popleft_while_twice by lra. reflexivity.
    + rewrite !cleanup_lookup_ne by exact Hne. reflexivity.
Qed.

Lemma can_send_message_eq self u now :
  can_send_message self u now =
  (under_limit (_cleanup_window self u now) u, _cleanup_window self u now).
Proof.
  unfold can_send_message, under_limit.
  destruct (user_windows _ !! u); [|reflexivity].
  destruct (_ <? _)%Z; reflexivity.
Qed.

Lemma record_message_eq self u now now' :
  record_message self u now now' =
  let pruned := _cleanup_window (_cleanup_window self u now) u now' in
  if under_limit pruned u then
    (true, set_user_windows pruned
             (<[u := window_of pruned u ++ [now]]> (user_windows pruned)))
  else (false, pruned).
Proof.
  unfold record_message. rewrite can_send_message_eq. reflexivity.
Qed.

Lemma time_until_next_allowed_eq self u now :
  time_until_next_allowed self u now =
  (Returned (wait_of (_cleanup_window self u now) u now), _cleanup_window self u now).
Proof.
  unfold time_until_next_allowed, wait_of.
  destruct (user_windows _ !! u) as [w|] eqn:E; [|reflexivity].
  destruct (_ <? _)%Z; [reflexivity|].
  apply cleanup_lookup_Some in E. destruct E as (x & r & -> & _). reflexivity.
Qed.

End SlidingWindow.

(** ** Invariants of the store along a run *)

Section Invariants.
Import SlidingWindowRateLimiter Run.

Lemma window_of_set_insert self u v window :
  window_of (set_user_windows self (<[u := window]> (user_windows self))) v =
  if decide (u = v) then window else window_of self v.
Proof.
  unfold window_of. simpl. rewrite lookup_insert.
  destruct (decide (u = v)); reflexivity.
Qed.

Lemma under_limit_quota self u :
  under_limit self u = true ->
  (len (window_of self u) < Z.max 1 (max_requests self))%Z.
Proof.
  unfold under_limit, window_of.
  destruct (user_windows self !! u) as [w|].
  - intros H. apply Z.ltb_lt in H. lia.
  - intros _. unfold len. simpl. lia.
Qed.

Lemma under_limit_strict self u :
  (0 < max_requests self)%Z ->
  under_limit self u = true <-> (len (window_of self u) < max_requests self)%Z.
Proof.
  intros HM. unfold under_limit, window_of.
  destruct (user_windows self !! u) as [w|].
  - apply Z.ltb_lt.
  - unfold len. simpl. split; [intros _; lia | reflexivity].
Qed.

(** The state after one call, as seen from one identity: its deque is
    the old one pruned at the readings of the call, with the timestamp
    of the call appended when the call is an accepted
    [record_message] of that identity. *)
Lemma step_window_size self o : window_size (snd (step self o)) = window_size self.
Proof.
  destruct o as [u now|u now now'|u now]; simpl.
  - rewrite can_send_message_eq. simpl. apply cleanup_window_size.
  - rewrite record_message_eq. simpl.
    destruct (under_limit _ u); simpl; rewrite !cleanup_window_size; reflexivity.
  - rewrite time_until_next_allowed_eq. simpl. apply cleanup_window_size.
Qed.

Lemma step_max_requests self o : max_requests (snd (step self o)) = max_requests self.
Proof.
  destruct o as [u now|u now now'|u now]; simpl.
  - rewrite can_send_message_eq. simpl. apply cleanup_max_requests.
  - rewrite record_message_eq. simpl.
    destruct (under_limit _ u); simpl; rewrite !cleanup_max_requests; reflexivity.
  - rewrite time_until_next_allowed_eq. simpl. apply cleanup_max_requests.
Qed.


Lemma exec_max_requests self ops : max_requests (exec self ops) = max_requests self.
Proof.
  revert self. induction ops as [|o ops IH]; intros self; simpl; [reflexivity|].
  rewrite IH. apply step_max_requests.
Qed.

(** *** No empty deque *)

Lemma cleanup_no_empty self u c :
  no_empty_window self -> no_empty_window (_cleanup_window self u c).
Proof.
  intros H v. destruct (decide (u = v)) as [<-|Hne].
  - intros E. apply cleanup_lookup_Some in E.
    destruct E as (x & r & E & _). discriminate.
  - rewrite cleanup_lookup_ne by exact Hne. apply H.
Qed.

Lemma step_no_empty self o :
  no_empty_window self -> no_empty_window (snd (step self o)).
Proof.
  intros H. destruct o as [u now|u now now'|u now]; simpl.
  - rewrite can_send_message_eq. simpl. apply cleanup_no_empty, H.
  - rewrite record_message_eq. simpl.
    destruct (under_limit _ u); simpl.
    + intros v. simpl. rewrite lookup_insert. destruct (decide (u = v)).
      * intros [= E]. destruct (window_of _ u); discriminate.
      * apply cleanup_no_empty, cleanup_no_empty, H.
    + apply cleanup_no_empty, cleanup_no_empty, H.
  - rewrite time_until_next_allowed_eq. simpl. apply cleanup_no_empty, H.
Qed.

Lemma exec_no_empty self ops :
  no_empty_window self -> no_empty_window (exec self ops).
Proof.
  revert self. induction ops as [|o ops IH]; intros self H; simpl; [exact H|].
  apply IH, step_no_empty, H.
Qed.


(** *** The quota *)

Lemma cleanup_within_quota self u c :
  within_quota self -> within_quota (_cleanup_window self u c).
Proof.
  intros H v. rewrite cleanup_max_requests.
  destruct (decide (u = v)) as [<-|Hne].
  - rewrite cleanup_window_of.
    pose proof (popleft_while_length (c - window_size self) (window_of self u)).
    specialize (H u). lia.
  - rewrite cleanup_window_of_ne by exact Hne. apply H.
Qed.

Lemma step_within_quota self o :
  within_quota self -> within_quota (snd (step self o)).
Proof.
  intros H. destruct o as [u now|u now now'|u now]; simpl.
  - rewrite can_send_message_eq. simpl. apply cleanup_within_quota, H.
  - rewrite record_message_eq. simpl.
    pose proof (cleanup_within_quota _ u now' (cleanup_within_quota _ u now H)) as Hq.
    destruct (under_limit _ u) eqn:E; simpl; [|exact Hq].
    intros v. rewrite window_of_set_insert. simpl.
    destruct (decide (u = v)) as [<-|Hne]; [|apply Hq].
    apply under_limit_quota in E. unfold len in *. rewrite length_app. simpl. lia.
  - rewrite time_until_next_allowed_eq. simpl. apply cleanup_within_quota, H.
Qed.

Lemma exec_within_quota self ops :
  within_quota self -> within_quota (exec self ops).
Proof.
  revert self. induction ops as [|o ops IH]; intros self H; simpl; [exact H|].
  apply IH, step_within_quota, H.
Qed.

Lemma fresh_within_quota w m : within_quota (mk w m ∅).
Proof. intros u. unfold window_of, len. simpl. rewrite lookup_empty. simpl. lia. Qed.

End Invariants.

(** ** Order of the deques under a monotone clock *)

Section Clock.
Import SlidingWindowRateLimiter Run.

Lemma last_default_irrelevant (y : Q) (l : list Q) (c x : Q) :
  List.last (y :: l) c = List.last (y :: l) x.
Proof.
  revert y. induction l as [|z l IH]; intros y; [reflexivity|].
  change (List.last (z :: l) c = List.last (z :: l) x). apply IH.
Qed.

Lemma last_cons (x : Q) (l : list Q) (c : Q) :
  List.last (x :: l) c = List.last l x.
Proof.
  destruct l as [|y l]; [reflexivity|].
  change (List.last (y :: l) c = List.last (y :: l) x).
  apply last_default_irrelevant.
Qed.

Lemma monotone_from_app c l1 l2 :
  monotone_from c (l1 ++ l2) <->
  monotone_from c l1 /\ monotone_from (List.last l1 c) l2.
Proof.
  revert c. induction l1 as [|x l1 IH]; intros c.
  - simpl. tauto.
  - rewrite last_cons.
    change (monotone_from c ((x :: l1) ++ l2))
      with (c <= x /\ monotone_from x (l1 ++ l2)).
    rewrite IH. simpl. tauto.
Qed.

Lemma monotone_from_bound c l hi :
  monotone_from c (l ++ [hi]) -> Forall (fun x => x <= hi) l /\ c <= hi.
Proof.
  revert c. induction l as [|x l IH]; intros c; simpl.
  - intros [H _]. split; [constructor | exact H].
  - intros [H1 H2]. destruct (IH x H2) as [Hall Hx]. split; [|lra].
    constructor; assumption.
Qed.

Lemma monotone_clock_bound l hi :
  monotone_clock (l ++ [hi]) -> Forall (fun x => x <= hi) l.
Proof.
  destruct l as [|x l]; simpl; [constructor|].
  intros H. apply monotone_from_bound in H. destruct H as [Hall Hx].
  constructor; assumption.
Qed.

Lemma StronglySorted_snoc (w : list Q) (x : Q) :
  StronglySorted Qle w -> Forall (fun y => y <= x) w ->
  StronglySorted Qle (w ++ [x]).
Proof.
  induction 1 as [|y w Hs IH Hall]; intros Hle; simpl.
  - constructor; constructor.
  - inversion Hle as [|? ? Hy Hw]; subst. constructor.
    + apply IH. exact Hw.
    + apply Forall_app. split; [exact Hall|]. constructor; [exact Hy | constructor].
Qed.

Lemma not_after_weaken c c' self :
  c <= c' -> not_after c self -> not_after c' self.
Proof.
  intros Hc H u. specialize (H u). revert H. apply List.Forall_impl. intros x Hx. lra.
Qed.

Lemma cleanup_sorted self u c :
  sorted_windows self -> sorted_windows (_cleanup_window self u c).
Proof.
  intros H v. destruct (decide (u = v)) as [<-|Hne].
  - rewrite cleanup_window_of. apply popleft_while_sorted_inv, H.
  - rewrite cleanup_window_of_ne by exact Hne. apply H.
Qed.

Lemma cleanup_not_after self u c c' :
  not_after c' self -> not_after c' (_cleanup_window self u c).
Proof.
  intros H v. destruct (decide (u = v)) as [<-|Hne].
  - rewrite cleanup_window_of. apply popleft_while_Forall, H.
  - rewrite cleanup_window_of_ne by exact Hne. apply H.
Qed.

Lemma step_sorted self o c :
  sorted_windows self -> not_after c self ->
  monotone_from c (readings_of o) ->
  sorted_windows (snd (step self o)) /\
  not_after (List.last (readings_of o) c) (snd (step self o)).
Proof.
  intros Hs Hc Hm. destruct o as [u now|u now now'|u now]; simpl in *.
  - rewrite can_send_message_eq. simpl. split.
    + apply cleanup_sorted, Hs.
    + apply cleanup_not_after. apply (not_after_weaken c); [tauto | exact Hc].
  - rewrite record_message_eq. simpl.
    destruct Hm as (H1 & H2 & _).
    pose proof (cleanup_sorted _ u now' (cleanup_sorted _ u now Hs)) as Hs'.
    pose proof (cleanup_not_after _ u now' c (cleanup_not_after _ u now c Hc)) as Hc'.
    destruct (under_limit _ u); simpl.
    + split; intros v; rewrite window_of_set_insert; destruct (decide (u = v)) as [<-|Hne].
      * apply StronglySorted_snoc; [apply Hs'|].
        generalize (Hc' u). apply List.Forall_impl. intros x Hx. lra.
      * apply Hs'.
      * apply Forall_app. split.
        -- generalize (Hc' u). apply List.Forall_impl. intros x Hx. lra.
        -- constructor; [exact H2 | constructor].
      * generalize (Hc' v). apply List.Forall_impl. intros x Hx. lra.
    + split; [exact Hs'|]. apply (not_after_weaken c); [lra | exact Hc'].
  - rewrite time_until_next_allowed_eq. simpl. split.
    + apply cleanup_sorted, Hs.
    + apply cleanup_not_after. apply (not_after_weaken c); [tauto | exact Hc].
Qed.


Lemma fresh_sorted w m : sorted_windows (mk w m ∅).
Proof. intros u. unfold window_of. simpl. rewrite lookup_empty. constructor. Qed.

Lemma fresh_not_after w m c : not_after c (mk w m ∅).
Proof. intros u. unfold window_of. simpl. rewrite lookup_empty. constructor. Qed.


End Clock.

(** ** The admission bound of the sliding window *)

Section Admission.
Import SlidingWindowRateLimiter Run.

Lemma count_after_app lo (a b : list Q) :
  count_after lo (a ++ b) = (count_after lo a + count_after lo b)%Z.
Proof.
  unfold count_after, len. rewrite List.filter_app, length_app. lia.
Qed.

Lemma count_after_le_len lo (a : list Q) : (count_after lo a <= len a)%Z.
Proof.
  unfold count_after, len.
  pose proof (List.filter_length_le (fun x => negb (Qle_bool x lo)) a). lia.
Qed.

Lemma count_in_le_after lo hi (a : list Q) : (count_in lo hi a <= count_after lo a)%Z.
Proof.
  unfold count_in, count_after, len.
  induction a as [|x a IH]; simpl; [lia|].
  destruct (Qle_bool x lo); simpl; [exact IH|].
  destruct (Qle_bool x hi); simpl; lia.
Qed.

Lemma cleanup_count_after self u v c lo :
  c - window_size self <= lo ->
  count_after lo (window_of (_cleanup_window self u c) v) =
  count_after lo (window_of self v).
Proof.
  intros Hc. destruct (decide (u = v)) as [<-|Hne].
  - rewrite cleanup_window_of. apply popleft_while_count_after. exact Hc.
  - rewrite cleanup_window_of_ne by exact Hne. reflexivity.
Qed.

(** One call: what the auditor adds to the log of [u] is what the call
    adds to the deque of [u], as far as timestamps later than [lo] are
    concerned, provided the call reads the clock no later than
    [lo + window_size]. *)
Lemma step_count_after self o u lo :
  Forall (fun x => x - window_size self <= lo) (readings_of o) ->
  (count_after lo (logged u o (fst (step self o))) +
   count_after lo (window_of self u))%Z =
  count_after lo (window_of (snd (step self o)) u).
Proof.
  intros Hr. destruct o as [v now|v now now'|v now]; simpl in *.
  - rewrite can_send_message_eq. simpl.
    inversion Hr; subst. rewrite cleanup_count_after by assumption. reflexivity.
  - rewrite record_message_eq. simpl.
    inversion Hr as [|? ? H1 Hr']; subst. inversion Hr' as [|? ? H2 _]; subst.
    assert (Hp : count_after lo
              (window_of (_cleanup_window (_cleanup_window self v now) v now') u) =
            count_after lo (window_of self u)).
    { rewrite cleanup_count_after by (rewrite cleanup_window_size; exact H2).
      apply cleanup_count_after. exact H1. }
    destruct (under_limit _ v); simpl.
    + rewrite window_of_set_insert.
      destruct (decide (v = u)) as [->|Hne].
      * rewrite count_after_app, Hp. lia.
      * rewrite Hp. reflexivity.
    + rewrite Hp. reflexivity.
  - rewrite time_until_next_allowed_eq. simpl.
    inversion Hr; subst. rewrite cleanup_count_after by assumption. reflexivity.
Qed.

Lemma accepted_count_after ops : forall self u lo,
  Forall (fun x => x - window_size self <= lo) (readings ops) ->
  (count_after lo (accepted self ops u) + count_after lo (window_of self u))%Z =
  count_after lo (window_of (exec self ops) u).
Proof.
  induction ops as [|o ops IH]; intros self u lo Hr; simpl; [reflexivity|].
  unfold readings in Hr. simpl in Hr. apply Forall_app in Hr. destruct Hr as [Hr1 Hr2].
  pose proof (step_count_after self o u lo Hr1) as Hstep.
  destruct (step self o) as [r self'] eqn:E. simpl in *.
  assert (Hw : window_size self' = window_size self).
  { replace self' with (snd (step self o)) by (rewrite E; reflexivity).
    apply step_window_size. }
  rewrite count_after_app.
  rewrite <- (IH self' u lo) by (rewrite Hw; exact Hr2).
  lia.
Qed.

End Admission.

(** ** The methods of the sliding window, one call at a time *)

Section SlidingWindowCalls.
Import SlidingWindowRateLimiter Run.

(** C7.  Started in a store without an empty deque (the store of a new
    limiter is one), every call of [can_send_message], [record_message]
    or [time_until_next_allowed], and so every sequence of them, ends
    in a store without an empty deque; an identity whose deque is
    emptied by the pruning is removed from the store. *)
Theorem store_cleanliness (self : t) :
  no_empty_window self ->
  (forall o, no_empty_window (snd (step self o))) /\
  (forall ops, no_empty_window (exec self ops)) /\
  (forall user_id now,
     popleft_while (now - window_size self) (window_of self user_id) = [] ->
     user_windows (_cleanup_window self user_id now) !! user_id = None).
Proof.
  intros H. split; [|split].
  - intros o. apply step_no_empty, H.
  - intros ops. apply exec_no_empty, H.
  - intros u now He. rewrite cleanup_lookup, He. reflexivity.
Qed.

Lemma store_cleanliness_witness :
  no_empty_window (mk 10 1 ∅) /\
  no_empty_window
    (exec (mk 10 1 ∅) [RecordMessage "u" 0 0; CanSend "u" 5; TimeUntil "u" 11]) /\
  user_windows (_cleanup_window sw_one_at_0 "u" 11) !! "u" = None.
Proof.
  assert (H0 : no_empty_window (mk 10 1 ∅)).
  { intros u. simpl. rewrite lookup_empty. discriminate. }
  assert (H1 : no_empty_window sw_one_at_0).
  { intros u. unfold sw_one_at_0. simpl. rewrite lookup_insert.
    destruct (decide ("u" = u)).
    - discriminate.
    - rewrite lookup_empty. discriminate. }
  split; [exact H0|]. split.
  - apply (proj1 (proj2 (store_cleanliness (mk 10 1 ∅) H0))).
  - apply (proj2 (proj2 (store_cleanliness sw_one_at_0 H1))).
    vm_compute. reflexivity.
Defined.

End SlidingWindowCalls.

(** ** Waiting time of the sliding window as the clock advances *)

Section SlidingWindowWait.
Import SlidingWindowRateLimiter Run.



(** The value on a pruned store is a function of the configuration and
    of the pruned deque. *)
Lemma wait_of_cleanup self u now :
  wait_of (_cleanup_window self u now) u now =
  match popleft_while (now - window_size self) (window_of self u) with
  | [] => 0
  | oldest :: rest =>
      if (len (oldest :: rest) <? max_requests self)%Z then 0
      else py_max (oldest + window_size self - now) 0
  end.
Proof.
  unfold wait_of. rewrite cleanup_lookup, cleanup_max_requests, cleanup_window_size.
  destruct (popleft_while _ _); reflexivity.
Qed.






End SlidingWindowWait.

(** ** The throttling limiter *)

Section Throttling.
Import ThrottlingRateLimiter.

Lemma throttling_can_send_true (self : ThrottlingRateLimiter.t) u now :
  ThrottlingRateLimiter.can_send_message self u now = true <->
  (last_message_time self !! u = None \/
   exists last_time,
     last_message_time self !! u = Some last_time /\
     min_interval self <= now - last_time).
Proof.
  unfold ThrottlingRateLimiter.can_send_message.
  destruct (last_message_time self !! u) as [last|].
  - destruct (Qle_bool (min_interval self) (now - last)) eqn:E; qcases; split.
    + intros _. right. exists last. split; [reflexivity | exact E].
    + reflexivity.
    + discriminate.
    + intros [H|(l & [= <-] & H)]; [discriminate | lra].
  - split; [intros _; left; reflexivity | reflexivity].
Qed.

Lemma throttling_wait_zero (self : ThrottlingRateLimiter.t) u now :
  ThrottlingRateLimiter.time_until_next_allowed self u now == 0 <->
  ThrottlingRateLimiter.can_send_message self u now = true.
Proof.
  rewrite throttling_can_send_true.
  unfold ThrottlingRateLimiter.time_until_next_allowed.
  destruct (last_message_time self !! u) as [last|].
  - rewrite py_max_zero_iff. split.
    + intros H. right. exists last. split; [reflexivity | lra].
    + intros [H|(l & [= <-] & H)]; [discriminate | lra].
  - split; [intros _; left; reflexivity | reflexivity].
Qed.


Lemma throttling_record_other (self : ThrottlingRateLimiter.t) a b now now' :
  a <> b ->
  last_message_time (snd (ThrottlingRateLimiter.record_message self a now now')) !! b =
  last_message_time self !! b.
Proof.
  intros Hne. unfold ThrottlingRateLimiter.record_message.
  destruct (ThrottlingRateLimiter.can_send_message self a now'); simpl; [|reflexivity].
  apply lookup_insert_ne. exact Hne.
Qed.

Lemma throttling_can_send_congr (self self' : ThrottlingRateLimiter.t) b now :
  min_interval self' = min_interval self ->
  last_message_time self' !! b = last_message_time self !! b ->
  ThrottlingRateLimiter.can_send_message self' b now =
  ThrottlingRateLimiter.can_send_message self b now.
Proof.
  intros Hm Hl. unfold ThrottlingRateLimiter.can_send_message.
  rewrite Hm, Hl. reflexivity.
Qed.

End Throttling.

(** ** Sliding window: one identity does not see the other *)

Section Isolation.
Import SlidingWindowRateLimiter.

Lemma record_message_other self a b now now' :
  a <> b ->
  user_windows (snd (record_message self a now now')) !! b = user_windows self !! b.
Proof.
  intros Hne. rewrite record_message_eq. simpl.
  destruct (under_limit _ a); simpl.
  - rewrite lookup_insert_ne by exact Hne.
    rewrite !cleanup_lookup_ne by exact Hne. reflexivity.
  - rewrite !cleanup_lookup_ne by exact Hne. reflexivity.
Qed.

Lemma record_message_config self a now now' :
  window_size (snd (record_message self a now now')) = window_size self /\
  max_requests (snd (record_message self a now now')) = max_requests self.
Proof.
  rewrite record_message_eq. simpl.
  destruct (under_limit _ a); simpl;
    rewrite !cleanup_window_size, !cleanup_max_requests; split; reflexivity.
Qed.

(** The answer of [can_send_message] depends on the configuration and
    on the entry of the identity only. *)
Lemma can_send_message_congr self self' b now :
  window_size self' = window_size self ->
  max_requests self' = max_requests self ->
  user_windows self' !! b = user_windows self !! b ->
  fst (can_send_message self' b now) = fst (can_send_message self b now).
Proof.
  intros Hw Hm Hl. rewrite !can_send_message_eq. simpl.
  unfold under_limit. rewrite !cleanup_lookup, !cleanup_max_requests.
  unfold window_of. rewrite Hw, Hm, Hl. reflexivity.
Qed.

End Isolation.

(** ** Properties shared by the two limiters *)

Section BothLimiters.
Import Run.

(** C2 as stated fails: built with a window of zero seconds and a quota
    of zero, or with an interval of zero seconds, the constructors
    return an instance and raise nothing. *)
Lemma construction_rejects_counterexample :
  ~ (exists e, SlidingWindowRateLimiter.__init__ 0 0 = Raised e) /\
  ~ (exists e, ThrottlingRateLimiter.__init__ 0 = Raised e).
Proof. split; intros [e H]; discriminate H. Qed.

(** C2, amended.  Neither constructor checks its arguments: for every
    configuration, non-positive values included, construction returns
    an instance that holds the values as given and an empty store. *)
Theorem construction_never_fails :
  (forall (window_size : Q) (max_requests : Z),
     exists self,
       SlidingWindowRateLimiter.__init__ window_size max_requests = Returned self /\
       SlidingWindowRateLimiter.window_size self = window_size /\
       SlidingWindowRateLimiter.max_requests self = max_requests /\
       SlidingWindowRateLimiter.user_windows self = ∅) /\
  (forall min_interval : Q,
     exists self,
       ThrottlingRateLimiter.__init__ min_interval = Returned self /\
       ThrottlingRateLimiter.min_interval self = min_interval /\
       ThrottlingRateLimiter.last_message_time self = ∅).
Proof.
  split.
  - intros w m. eexists. split; [reflexivity|]. simpl. repeat split.
  - intros i. eexists. split; [reflexivity|]. simpl. repeat split.
Qed.

(** C6.  A call of [record_message] that returns [False] appends and
    replaces nothing.  Sliding window, under a clock that does not go
    back between the two readings of the call: the limiter after the
    call is the limiter after the pruning of the identity alone.
    Throttling: the limiter is unchanged. *)
Theorem rejection_is_atomic :
  (forall (self self' : SlidingWindowRateLimiter.t) (user_id : string) (now now' : Q),
     now <= now' ->
     SlidingWindowRateLimiter.record_message self user_id now now' = (false, self') ->
     self' = _cleanup_window self user_id now') /\
  (forall (self self' : ThrottlingRateLimiter.t) (user_id : string) (now now' : Q),
     ThrottlingRateLimiter.record_message self user_id now now' = (false, self') ->
     self' = self).
Proof.
  split.
  - intros self self' u now now' Hc. rewrite record_message_eq. simpl.
    destruct (under_limit _ u); [discriminate|].
    intros [= <-]. apply cleanup_twice. exact Hc.
  - intros self self' u now now'. unfold ThrottlingRateLimiter.record_message.
    destruct (ThrottlingRateLimiter.can_send_message self u now'); [discriminate|].
    intros [= <-]. reflexivity.
Qed.

Lemma rejection_is_atomic_witness :
  snd (SlidingWindowRateLimiter.record_message sw_three "u" 10 11) =
    _cleanup_window sw_three "u" 11 /\
  snd (ThrottlingRateLimiter.record_message th_one_at_0 "u" 5 6) = th_one_at_0.
Proof.
  split.
  - apply (proj1 rejection_is_atomic sw_three _ "u" 10 11).
    + lra.
    + vm_compute. reflexivity.
  - apply (proj2 rejection_is_atomic th_one_at_0 _ "u" 5 6).
    vm_compute. reflexivity.
Defined.

(** C9.  For distinct identities [a] and [b], [record_message a] leaves
    the entry of [b] as it was and does not change what
    [can_send_message b] answers at any given time. *)
Theorem identity_isolation (a b : string) :
  a <> b ->
  (forall (self : SlidingWindowRateLimiter.t) (now now' : Q),
     let self' := snd (SlidingWindowRateLimiter.record_message self a now now') in
     user_windows self' !! b = user_windows self !! b /\
     forall at_time,
       fst (SlidingWindowRateLimiter.can_send_message self' b at_time) =
       fst (SlidingWindowRateLimiter.can_send_message self b at_time)) /\
  (forall (self : ThrottlingRateLimiter.t) (now now' : Q),
     let self' := snd (ThrottlingRateLimiter.record_message self a now now') in
     ThrottlingRateLimiter.last_message_time self' !! b =
     ThrottlingRateLimiter.last_message_time self !! b /\
     forall at_time,
       ThrottlingRateLimiter.can_send_message self' b at_time =
       ThrottlingRateLimiter.can_send_message self b at_time).
Proof.
  intros Hne. split.
  - intros self now now' self'. subst self'.
    pose proof (record_message_other self a b now now' Hne) as Hl.
    destruct (record_message_config self a now now') as [Hw Hm].
    split; [exact Hl|]. intros at_time.
    apply can_send_message_congr; assumption.
  - intros self now now' self'. subst self'.
    pose proof (throttling_record_other self a b now now' Hne) as Hl.
    split; [exact Hl|]. intros at_time.
    apply throttling_can_send_congr; [|exact Hl].
    unfold ThrottlingRateLimiter.record_message.
    destruct (ThrottlingRateLimiter.can_send_message self a now'); reflexivity.
Qed.

End BothLimiters.

(** ** Worked examples *)

Section Examples.
Import Run.

Lemma identity_isolation_witness :
  user_windows (snd (SlidingWindowRateLimiter.record_message sw_one_at_0 "v" 3 3)) !! "u" =
    user_windows sw_one_at_0 !! "u" /\
  ThrottlingRateLimiter.can_send_message
    (snd (ThrottlingRateLimiter.record_message th_one_at_0 "v" 3 3)) "u" 4 =
  ThrottlingRateLimiter.can_send_message th_one_at_0 "u" 4.
Proof.
  assert (Hne : "v" <> "u") by discriminate.
  split.
  - apply (proj1 (identity_isolation "v" "u" Hne) sw_one_at_0 3 3).
  - apply (proj2 (identity_isolation "v" "u" Hne) th_one_at_0 3 3).
Defined.

(** The absent-identity test of [can_send_message] lets a fresh identity
    in whatever the quota is, so the quota is only kept for
    [max_requests >= 1]. *)
Lemma fresh_identity_let_in (self : SlidingWindowRateLimiter.t) u now now' :
  user_windows self !! u = None ->
  fst (SlidingWindowRateLimiter.record_message self u now now') = true.
Proof.
  intros H. rewrite record_message_eq. simpl.
  assert (E : user_windows (_cleanup_window (_cleanup_window self u now) u now') !! u = None).
  { rewrite cleanup_lookup, cleanup_window_of. unfold window_of. rewrite H. reflexivity. }
  unfold under_limit. rewrite E. reflexivity.
Qed.

(** Sliding window, [window_size = 10], [max_requests = 1]: a message
    recorded at 0 is accepted, at 5 the identity is refused and has to
    wait 5 seconds, at 11 it is accepted again. *)
Example sliding_window_scenario :
  let l0 := mk 10 1 ∅ in
  let '(r1, l1) := SlidingWindowRateLimiter.record_message l0 "u" 0 0 in
  let '(r2, l2) := SlidingWindowRateLimiter.can_send_message l1 "u" 5 in
  let '(r3, l3) := SlidingWindowRateLimiter.time_until_next_allowed l2 "u" 5 in
  let '(r4, l4) := SlidingWindowRateLimiter.record_message l3 "u" 11 11 in
  r1 = true /\ r2 = false /\ r3 = Returned 5 /\ r4 = true /\ window_of l4 "u" = [11].
Proof. vm_compute. repeat split. Qed.

(** Throttling, [min_interval = 10]: accepted at 0, refused at 9.999
    with 0.001 seconds to wait, accepted at 10. *)
Example throttling_scenario :
  let l0 := ThrottlingRateLimiter.mk 10 ∅ in
  let '(r1, l1) := ThrottlingRateLimiter.record_message l0 "u" 0 0 in
  let '(r2, l2) := ThrottlingRateLimiter.record_message l1 "u" 9.999 9.999 in
  let r3 := ThrottlingRateLimiter.time_until_next_allowed l2 "u" 9.999 in
  let '(r4, l4) := ThrottlingRateLimiter.record_message l2 "u" 10 10 in
  r1 = true /\ r2 = false /\ r3 == 0.001 /\ r4 = true.
Proof. vm_compute. repeat split. Qed.

End Examples.


(** * Further properties of the two classes *)

(** ** Sliding window: how calls compose *)

Section SlidingWindowCompose.
Import SlidingWindowRateLimiter Run.

Lemma popleft_while_split (cutoff : Q) (window : list Q) :
  exists popped,
    window = popped ++ popleft_while cutoff window /\
    Forall (fun x => x <= cutoff) popped.
Proof.
  induction window as [|y w [popped [Heq Hall]]]; simpl.
  - exists []. split; [reflexivity | constructor].
  - destruct (Qle_bool y cutoff) eqn:E.
    + exists (y :: popped). split.
      * simpl. f_equal. exact Heq.
      * constructor; [qcases; exact E | exact Hall].
    + exists []. split; [reflexivity | constructor].
Qed.

Lemma popleft_while_keep (cutoff x : Q) (rest : list Q) :
  cutoff < x -> popleft_while cutoff (x :: rest) = x :: rest.
Proof.
  intros H. simpl.
  assert (E : Qle_bool x cutoff = false) by (apply Qle_bool_false; exact H).
  rewrite E. reflexivity.
Qed.

Lemma popleft_while_all (cutoff : Q) (window : list Q) :
  Forall (fun x => x <= cutoff) window -> popleft_while cutoff window = [].
Proof.
  induction 1 as [|y w Hy Hall IH]; simpl; [reflexivity|].
  assert (E : Qle_bool y cutoff = true) by (apply Qle_bool_true; exact Hy).
  rewrite E. exact IH.
Qed.

Lemma under_limit_iff_no_wait self u now :
  under_limit (_cleanup_window self u now) u = true <->
  wait_of (_cleanup_window self u now) u now == 0.
Proof.
  unfold under_limit, wait_of.
  destruct (user_windows (_cleanup_window self u now) !! u) as [w|] eqn:E.
  - apply cleanup_lookup_Some in E. destruct E as (x & r & -> & Hx).
    rewrite cleanup_window_size.
    destruct (len (x :: r) <? max_requests _)%Z; [split; reflexivity|].
    rewrite py_max_zero_iff. split; [discriminate | intros H; lra].
  - split; reflexivity.
Qed.

(** X1.  A check made earlier for an identity does not change what a
    later call for that identity sees: after [can_send_message] or
    [time_until_next_allowed] for [user_id] at [t1], the three methods
    called for the same [user_id] at a reading [t2 >= t1] return what
    they return without the earlier call and leave the same limiter.  In
    particular, a check repeated at the same reading gives the same
    answer and changes nothing more. *)
Theorem earlier_check_is_invisible (self : t) (user_id : string) (t1 t2 t2' : Q) :
  t1 <= t2 ->
  snd (can_send_message self user_id t1) = snd (time_until_next_allowed self user_id t1) /\
  can_send_message (snd (can_send_message self user_id t1)) user_id t2 =
    can_send_message self user_id t2 /\
  time_until_next_allowed (snd (can_send_message self user_id t1)) user_id t2 =
    time_until_next_allowed self user_id t2 /\
  record_message (snd (can_send_message self user_id t1)) user_id t2 t2' =
    record_message self user_id t2 t2' /\
  can_send_message (snd (can_send_message self user_id t1)) user_id t1 =
    can_send_message self user_id t1.
Proof.
  intros Ht.
  rewrite !can_send_message_eq, !time_until_next_allowed_eq, !record_message_eq. simpl.
  rewrite (cleanup_twice self user_id t1 t2) by exact Ht.
  rewrite (cleanup_twice self user_id t1 t1) by lra.
  repeat split; reflexivity.
Qed.

Lemma earlier_check_is_invisible_witness :
  can_send_message (snd (can_send_message sw_three "u" 6)) "u" 16 =
  can_send_message sw_three "u" 16.
Proof.
  apply (earlier_check_is_invisible sw_three "u" 6 16 16). lra.
Defined.

(** X3.  [record_message] accepts exactly when [can_send_message] called
    at its second reading answers [True], and a refusing
    [record_message] leaves the limiter that [can_send_message] leaves. *)
Theorem record_message_agrees_with_can_send
    (self : t) (user_id : string) (now now' : Q) :
  now <= now' ->
  fst (record_message self user_id now now') =
    fst (can_send_message self user_id now') /\
  (fst (record_message self user_id now now') = false ->
   snd (record_message self user_id now now') =
     snd (can_send_message self user_id now')).
Proof.
  intros Hc. rewrite record_message_eq, can_send_message_eq. simpl.
  rewrite (cleanup_twice self user_id now now') by exact Hc.
  destruct (under_limit _ user_id); simpl; split; try reflexivity.
  discriminate.
Qed.

Lemma record_message_agrees_with_can_send_witness :
  fst (record_message sw_three "u" 10 11) = fst (can_send_message sw_three "u" 11).
Proof.
  apply (record_message_agrees_with_can_send sw_three "u" 10 11). lra.
Defined.

End SlidingWindowCompose.

(** ** Sliding window: what the store holds along a run *)

Section SlidingWindowStore.
Import SlidingWindowRateLimiter Run.

Lemma cleanup_split self u v c :
  exists popped,
    window_of self v = popped ++ window_of (_cleanup_window self u c) v.
Proof.
  destruct (decide (u = v)) as [<-|Hne].
  - rewrite cleanup_window_of.
    destruct (popleft_while_split (c - window_size self) (window_of self u))
      as (popped & Heq & _).
    exists popped. exact Heq.
  - exists []. rewrite cleanup_window_of_ne by exact Hne. reflexivity.
Qed.

Lemma step_log_split self o u :
  exists popped,
    window_of self u ++ logged u o (fst (step self o)) =
    popped ++ window_of (snd (step self o)) u.
Proof.
  destruct o as [v now|v now now'|v now]; simpl.
  - rewrite can_send_message_eq. simpl. rewrite app_nil_r. apply cleanup_split.
  - rewrite record_message_eq. simpl.
    destruct (cleanup_split self v u now) as (p1 & H1).
    destruct (cleanup_split (_cleanup_window self v now) v u now') as (p2 & H2).
    destruct (under_limit _ v); simpl.
    + rewrite window_of_set_insert.
      destruct (decide (v = u)) as [->|Hne].
      * exists (p1 ++ p2). rewrite H1, H2, <- !app_assoc. reflexivity.
      * exists (p1 ++ p2). rewrite app_nil_r, H1, H2, <- !app_assoc. reflexivity.
    + exists (p1 ++ p2). rewrite app_nil_r, H1, H2, <- !app_assoc. reflexivity.
  - rewrite time_until_next_allowed_eq. simpl. rewrite app_nil_r. apply cleanup_split.
Qed.

Lemma exec_log_split ops : forall self u,
  exists popped,
    window_of self u ++ accepted self ops u =
    popped ++ window_of (exec self ops) u.
Proof.
  induction ops as [|o ops IH]; intros self u; simpl.
  - exists []. rewrite app_nil_r. reflexivity.
  - destruct (step_log_split self o u) as (p1 & H1).
    destruct (step self o) as [r self'] eqn:E. simpl in *.
    destruct (IH self' u) as (p2 & H2).
    exists (p1 ++ p2).
    rewrite app_assoc, H1, <- app_assoc, H2, app_assoc. reflexivity.
Qed.

Lemma last_app_chain (l1 l2 : list Q) (c : Q) :
  List.last (l1 ++ l2) c = List.last l2 (List.last l1 c).
Proof.
  revert c. induction l1 as [|x l1 IH]; intros c; [reflexivity|].
  change ((x :: l1) ++ l2) with (x :: (l1 ++ l2)).
  rewrite !last_cons. apply IH.
Qed.

Lemma exec_sorted_not_after ops : forall self c,
  sorted_windows self -> not_after c self ->
  monotone_from c (readings ops) ->
  sorted_windows (exec self ops) /\
  not_after (List.last (readings ops) c) (exec self ops).
Proof.
  induction ops as [|o ops IH]; intros self c Hs Hc Hm; simpl; [split; assumption|].
  unfold readings in *. simpl in Hm. apply monotone_from_app in Hm.
  destruct Hm as [Hm1 Hm2].
  destruct (step_sorted self o c Hs Hc Hm1) as [Hs' Hc'].
  destruct (IH _ _ Hs' Hc' Hm2) as [Hs'' Hc''].
  split; [exact Hs''|].
  simpl. rewrite last_app_chain. exact Hc''.
Qed.

(** X4.  Whatever the clock does, the deque of an identity is the tail
    end of the list of its accepted timestamps, in the order of
    acceptance: the limiter stores nothing else and forgets only from
    the old end. *)
Theorem deque_is_tail_of_accepted
    (w : Q) (m : Z) (ops : list op) (user_id : string) :
  exists forgotten,
    accepted (mk w m ∅) ops user_id =
    forgotten ++ window_of (exec (mk w m ∅) ops) user_id.
Proof.
  destruct (exec_log_split ops (mk w m ∅) user_id) as (popped & H).
  exists popped. rewrite <- H.
  unfold window_of. simpl. rewrite lookup_empty. reflexivity.
Qed.

(** X5.  Under a clock that never goes back, after any sequence of calls
    on a new limiter every deque is in non-decreasing order, holds no
    timestamp later than the last reading of the clock, and has at most
    [max(1, max_requests)] elements. *)
Theorem deques_sorted_timely_bounded
    (w : Q) (m : Z) (ops : list op) (user_id : string) :
  monotone_clock (readings ops) ->
  let final := exec (mk w m ∅) ops in
  StronglySorted Qle (window_of final user_id) /\
  Forall (fun x => x <= List.last (readings ops) 0) (window_of final user_id) /\
  (len (window_of final user_id) <= Z.max 1 m)%Z.
Proof.
  intros Hm final. subst final.
  pose proof (exec_within_quota (mk w m ∅) ops (fresh_within_quota w m) user_id) as Hq.
  rewrite exec_max_requests in Hq. simpl in Hq.
  destruct (readings ops) as [|t0 rest] eqn:E.
  - destruct (exec_sorted_not_after ops (mk w m ∅) 0
                (fresh_sorted w m) (fresh_not_after w m 0)) as [Hs Hc].
    { rewrite E. exact I. }
    rewrite E in Hc. split; [apply Hs|]. split; [apply Hc | exact Hq].
  - destruct (exec_sorted_not_after ops (mk w m ∅) t0
                (fresh_sorted w m) (fresh_not_after w m t0)) as [Hs Hc].
    { rewrite E. simpl. split; [lra | exact Hm]. }
    rewrite E in Hc. rewrite last_cons in Hc.
    split; [apply Hs|]. split; [|exact Hq].
    rewrite last_cons. apply Hc.
Qed.

Lemma deques_sorted_timely_bounded_witness :
  StronglySorted Qle
    (window_of (exec (mk 10 2 ∅)
                  [RecordMessage "u" 0 0; RecordMessage "u" 3 4; TimeUntil "u" 5]) "u").
Proof.
  apply (deques_sorted_timely_bounded 10 2
           [RecordMessage "u" 0 0; RecordMessage "u" 3 4; TimeUntil "u" 5] "u").
  simpl. repeat split; lra.
Defined.

End SlidingWindowStore.

(** ** Sliding window: the reported waiting time *)

Section SlidingWindowDeadline.
Import SlidingWindowRateLimiter Run.

(** A positive waiting time comes from a full deque whose oldest
    timestamp has not expired. *)
Lemma positive_wait_inv self u now :
  0 < wait_of (_cleanup_window self u now) u now ->
  exists oldest rest,
    popleft_while (now - window_size self) (window_of self u) = oldest :: rest /\
    (max_requests self <= len (oldest :: rest))%Z /\
    now - window_size self < oldest /\
    wait_of (_cleanup_window self u now) u now = oldest + window_size self - now.
Proof.
  rewrite wait_of_cleanup.
  destruct (popleft_while (now - window_size self) (window_of self u))
    as [|x r] eqn:E; [intros H; lra|].
  destruct (len (x :: r) <? max_requests self)%Z eqn:EL; [intros H; lra|].
  intros _. apply Z.ltb_ge in EL. apply popleft_while_head in E.
  exists x, r. split; [reflexivity|]. split; [exact EL|]. split; [exact E|].
  apply py_max_pos. lra.
Qed.

Lemma full_deque_refuses self u t oldest rest :
  popleft_while (t - window_size self) (window_of self u) = oldest :: rest ->
  (max_requests self <= len (oldest :: rest))%Z ->
  under_limit (_cleanup_window self u t) u = false.
Proof.
  intros Hp HL. unfold under_limit.
  rewrite cleanup_lookup, Hp, cleanup_max_requests.
  apply Z.ltb_ge. exact HL.
Qed.

End SlidingWindowDeadline.

(** ** Sliding window: configurations that are not positive *)

Section SlidingWindowEdges.
Import SlidingWindowRateLimiter Run.

Lemma cleanup_user_windows_quota w m m' store u c :
  user_windows (_cleanup_window (mk w m store) u c) =
  user_windows (_cleanup_window (mk w m' store) u c).
Proof.
  unfold _cleanup_window. simpl.
  destruct (store !! u) as [window|]; [|reflexivity].
  destruct (popleft_while (c - w) window); reflexivity.
Qed.

Lemma under_limit_quota_one w m store u c :
  (m <= 0)%Z ->
  under_limit (_cleanup_window (mk w m store) u c) u =
  under_limit (_cleanup_window (mk w 1 store) u c) u.
Proof.
  intros Hm. unfold under_limit.
  rewrite !cleanup_max_requests, (cleanup_user_windows_quota w m 1). simpl.
  destruct (user_windows (_cleanup_window (mk w 1 store) u c) !! u) as [window|] eqn:E;
    [|reflexivity].
  apply cleanup_lookup_Some in E. destruct E as (x & r & -> & _).
  assert (H1 : (len (x :: r) <? m)%Z = false)
    by (apply Z.ltb_ge; unfold len; simpl; lia).
  assert (H2 : (len (x :: r) <? 1)%Z = false)
    by (apply Z.ltb_ge; unfold len; simpl; lia).
  rewrite H1, H2. reflexivity.
Qed.

(** X10.  A quota that is zero or negative acts as a quota of one: on the
    same store and at the same readings, the three methods of a limiter
    with [max_requests <= 0] return what they return with
    [max_requests = 1] and leave the same store. *)
Theorem non_positive_quota_acts_as_one
    (w : Q) (m : Z) (store : gmap string (list Q))
    (user_id : string) (now now' : Q) :
  (m <= 0)%Z ->
  let self := mk w m store in
  let one := mk w 1 store in
  fst (can_send_message self user_id now) = fst (can_send_message one user_id now) /\
  user_windows (snd (can_send_message self user_id now)) =
    user_windows (snd (can_send_message one user_id now)) /\
  fst (record_message self user_id now now') = fst (record_message one user_id now now') /\
  user_windows (snd (record_message self user_id now now')) =
    user_windows (snd (record_message one user_id now now')) /\
  fst (time_until_next_allowed self user_id now) =
    fst (time_until_next_allowed one user_id now).
Proof.
  intros Hm self one. subst self one.
  rewrite !can_send_message_eq, !record_message_eq, !time_until_next_allowed_eq. simpl.
  split; [apply under_limit_quota_one; exact Hm|].
  split; [apply cleanup_user_windows_quota|].
  assert (Hs : forall c, user_windows (_cleanup_window (_cleanup_window (mk w m store) user_id now) user_id c) =
               user_windows (_cleanup_window (_cleanup_window (mk w 1 store) user_id now) user_id c)).
  { intros c.
    pose proof (cleanup_user_windows_quota w m 1 store user_id now) as H0.
    destruct (_cleanup_window (mk w m store) user_id now) as [w1 m1 s1] eqn:E1.
    destruct (_cleanup_window (mk w 1 store) user_id now) as [w2 m2 s2] eqn:E2.
    simpl in H0. subst s2.
    assert (w1 = w) by (change w1 with (window_size (mk w1 m1 s1));
                         rewrite <- E1; apply cleanup_window_size).
    assert (w2 = w) by (change w2 with (window_size (mk w2 m2 s1));
                         rewrite <- E2; apply cleanup_window_size).
    subst w1 w2. apply cleanup_user_windows_quota. }
  assert (Hu : under_limit (_cleanup_window (_cleanup_window (mk w m store) user_id now) user_id now') user_id =
               under_limit (_cleanup_window (_cleanup_window (mk w 1 store) user_id now) user_id now') user_id).
  { pose proof (cleanup_user_windows_quota w m 1 store user_id now) as H0.
    destruct (_cleanup_window (mk w m store) user_id now) as [w1 m1 s1] eqn:E1.
    destruct (_cleanup_window (mk w 1 store) user_id now) as [w2 m2 s2] eqn:E2.
    simpl in H0. subst s2.
    assert (w1 = w) by (change w1 with (window_size (mk w1 m1 s1));
                         rewrite <- E1; apply cleanup_window_size).
    assert (w2 = w) by (change w2 with (window_size (mk w2 m2 s1));
                         rewrite <- E2; apply cleanup_window_size).
    assert (m1 = m) by (change m1 with (max_requests (mk w1 m1 s1));
                         rewrite <- E1; apply cleanup_max_requests).
    assert (m2 = 1%Z) by (change m2 with (max_requests (mk w2 m2 s1));
                         rewrite <- E2; apply cleanup_max_requests).
    subst. apply under_limit_quota_one. exact Hm. }
  rewrite Hu. clear Hu.
  set (ok := under_limit
               (_cleanup_window (_cleanup_window (mk w 1 store) user_id now) user_id now')
               user_id).
  split.
  { destruct ok; reflexivity. }
  split.
  { destruct ok; simpl.
    - unfold window_of. rewrite (Hs now'). reflexivity.
    - apply Hs. }
  f_equal. unfold wait_of.
  rewrite !cleanup_max_requests, !cleanup_window_size,
    (cleanup_user_windows_quota w m 1). simpl.
  destruct (user_windows (_cleanup_window (mk w 1 store) user_id now) !! user_id)
    as [window|] eqn:E; [|reflexivity].
  apply cleanup_lookup_Some in E. destruct E as (x & r & -> & _).
  assert (H1 : (len (x :: r) <? m)%Z = false)
    by (apply Z.ltb_ge; unfold len; simpl; lia).
  assert (H2 : (len (x :: r) <? 1)%Z = false)
    by (apply Z.ltb_ge; unfold len; simpl; lia).
  rewrite H1, H2. reflexivity.
Qed.

Lemma non_positive_quota_acts_as_one_witness :
  fst (record_message (mk 10 0 ∅) "u" 0 0) = fst (record_message (mk 10 1 ∅) "u" 0 0).
Proof.
  apply (non_positive_quota_acts_as_one 10 0 ∅ "u" 0 0). lia.
Defined.

(** X11.  A window of zero or negative size never refuses: when no
    stored timestamp of the identity is later than the clock,
    [can_send_message] answers [True], [time_until_next_allowed] returns
    zero and [record_message] is accepted, after which the deque of the
    identity holds the new timestamp alone. *)
Theorem non_positive_window_never_refuses
    (self : t) (user_id : string) (now now' : Q) :
  window_size self <= 0 ->
  now <= now' ->
  Forall (fun x => x <= now) (window_of self user_id) ->
  fst (can_send_message self user_id now) = true /\
  fst (time_until_next_allowed self user_id now) = Returned 0 /\
  fst (record_message self user_id now now') = true /\
  window_of (snd (record_message self user_id now now')) user_id = [now].
Proof.
  intros HW Hc Hall.
  assert (Hp : forall c, now <= c ->
            popleft_while (c - window_size self) (window_of self user_id) = []).
  { intros c Hle. apply popleft_while_all.
    revert Hall. apply List.Forall_impl. intros x Hx. lra. }
  assert (Hn : forall c, now <= c ->
            user_windows (_cleanup_window self user_id c) !! user_id = None).
  { intros c Hle. rewrite cleanup_lookup, (Hp c Hle). reflexivity. }
  rewrite can_send_message_eq, time_until_next_allowed_eq, record_message_eq. simpl.
  rewrite (cleanup_twice self user_id now now') by exact Hc.
  unfold under_limit, wait_of.
  rewrite (Hn now) by lra. rewrite (Hn now') by exact Hc.
  split; [reflexivity|]. split; [reflexivity|]. split; [reflexivity|].
  simpl. rewrite window_of_set_insert.
  destruct (decide (user_id = user_id)) as [_|Hne]; [|contradiction].
  unfold window_of. rewrite (Hn now') by exact Hc. reflexivity.
Qed.

Lemma non_positive_window_never_refuses_witness :
  fst (record_message (mk 0 1 (<["u" := [3]%Q]> ∅)) "u" 3 3) = true.
Proof.
  refine (proj1 (proj2 (proj2
    (non_positive_window_never_refuses (mk 0 1 (<["u" := [3]%Q]> ∅)) "u" 3 3 _ _ _)))).
  - simpl. lra.
  - lra.
  - vm_compute. repeat constructor. discriminate.
Defined.

End SlidingWindowEdges.

(** ** Throttling: the reported waiting time, runs, and edge cases *)

Section ThrottlingMore.
Import ThrottlingRateLimiter.

Lemma throttling_can_send_false (self : ThrottlingRateLimiter.t) u now :
  ThrottlingRateLimiter.can_send_message self u now = false <->
  exists last_time,
    last_message_time self !! u = Some last_time /\
    now - last_time < min_interval self.
Proof.
  unfold ThrottlingRateLimiter.can_send_message.
  destruct (last_message_time self !! u) as [last|].
  - destruct (Qle_bool (min_interval self) (now - last)) eqn:E; qcases; split.
    + discriminate.
    + intros (l & [= <-] & H). lra.
    + intros _. exists last. split; [reflexivity | exact E].
    + reflexivity.
  - split; [discriminate | intros (l & H & _); discriminate].
Qed.

(** X14.  Throttling: when the timestamp kept for the identity is not
    later than the reading [now], the waiting time returned is between
    zero and the interval, and zero for an interval that is not
    positive. *)
Theorem throttling_wait_at_most_interval
    (self : ThrottlingRateLimiter.t) (user_id : string) (now : Q) :
  (forall last_time,
     last_message_time self !! user_id = Some last_time -> last_time <= now) ->
  0 <= ThrottlingRateLimiter.time_until_next_allowed self user_id now /\
  ThrottlingRateLimiter.time_until_next_allowed self user_id now
    <= Qmax 0 (min_interval self) /\
  (min_interval self <= 0 ->
   ThrottlingRateLimiter.time_until_next_allowed self user_id now == 0).
Proof.
  intros Hlast. unfold ThrottlingRateLimiter.time_until_next_allowed.
  destruct (last_message_time self !! user_id) as [last|].
  - specialize (Hlast last eq_refl).
    split; [apply py_max_nonneg|]. split.
    + unfold py_max. destruct (Qle_bool 0 _) eqn:E; qcases.
      * apply Qle_trans with (min_interval self); [lra | apply Q.le_max_r].
      * apply Q.le_max_l.
    + intros Hm. apply py_max_zero_iff. lra.
  - split; [lra|]. split; [apply Q.le_max_l | intros _; reflexivity].
Qed.

Lemma throttling_wait_at_most_interval_witness :
  ThrottlingRateLimiter.time_until_next_allowed th_one_at_0 "u" 4 <= Qmax 0 10.
Proof.
  refine (proj1 (proj2 (throttling_wait_at_most_interval th_one_at_0 "u" 4 _))).
  intros last. vm_compute. intros [= <-]. discriminate.
Defined.

(** X15.  Throttling with an interval that is zero or negative: a
    [record_message] is accepted whenever the timestamp kept for the
    identity is not later than the reading of the nested check, so under
    a clock that never goes back nothing is ever refused. *)
Theorem throttling_non_positive_interval_never_refuses
    (self : ThrottlingRateLimiter.t) (user_id : string) (now now' : Q) :
  min_interval self <= 0 ->
  (forall last_time,
     last_message_time self !! user_id = Some last_time -> last_time <= now') ->
  ThrottlingRateLimiter.can_send_message self user_id now' = true /\
  fst (ThrottlingRateLimiter.record_message self user_id now now') = true.
Proof.
  intros Hm Hlast.
  assert (Hc : ThrottlingRateLimiter.can_send_message self user_id now' = true).
  { apply throttling_can_send_true.
    destruct (last_message_time self !! user_id) as [last|]; [|left; reflexivity].
    right. exists last. split; [reflexivity|]. specialize (Hlast last eq_refl). lra. }
  split; [exact Hc|].
  unfold ThrottlingRateLimiter.record_message. rewrite Hc. reflexivity.
Qed.

Lemma throttling_non_positive_interval_never_refuses_witness :
  fst (ThrottlingRateLimiter.record_message
         (ThrottlingRateLimiter.mk 0 (<["u" := 3%Q]> ∅)) "u" 3 3) = true.
Proof.
  refine (proj2 (throttling_non_positive_interval_never_refuses
                   (ThrottlingRateLimiter.mk 0 (<["u" := 3%Q]> ∅)) "u" 3 3 _ _)).
  - simpl. lra.
  - intros last. vm_compute. intros [= <-]. discriminate.
Defined.

End ThrottlingMore.

(** ** Throttling: what a run keeps *)

Section ThrottlingRuns.
Import ThrottlingRateLimiter ThrottleRun.

Lemma last_cons_any {A : Type} (x : A) (l : list A) (c : A) :
  List.last (x :: l) c = List.last l x.
Proof.
  destruct l as [|y l]; [reflexivity|].
  change (List.last (y :: l) c = List.last (y :: l) x).
  revert y. induction l as [|z l IH]; intros y; [reflexivity|].
  change (List.last (z :: l) c = List.last (z :: l) x). apply IH.
Qed.

Lemma throttle_step_min_interval self o :
  min_interval (snd (step self o)) = min_interval self.
Proof.
  destruct o as [u now|u now now'|u now]; simpl; try reflexivity.
  unfold ThrottlingRateLimiter.record_message.
  destruct (ThrottlingRateLimiter.can_send_message self u now'); reflexivity.
Qed.

(** One call, seen from the identity [u]: either nothing is logged and
    the entry of [u] stays, or the call is an accepted [record_message]
    of [u], checked at least [min_interval] after the entry, which
    becomes the first reading of the call. *)
Lemma throttle_step_cases self o u :
  (logged u o (fst (step self o)) = [] /\
   last_message_time (snd (step self o)) !! u = last_message_time self !! u) \/
  (exists now now',
     logged u o (fst (step self o)) = [(now, now')] /\
     last_message_time (snd (step self o)) !! u = Some now /\
     match last_message_time self !! u with
     | None => True
     | Some last_time => min_interval self <= now' - last_time
     end).
Proof.
  destruct o as [v now|v now now'|v now]; simpl; try (left; split; reflexivity).
  unfold ThrottlingRateLimiter.record_message.
  destruct (ThrottlingRateLimiter.can_send_message self v now') eqn:E; simpl.
  - destruct (decide (v = u)) as [->|Hne].
    + right. exists now, now'. split; [reflexivity|].
      split; [apply lookup_insert_eq|].
      apply throttling_can_send_true in E.
      destruct (last_message_time self !! u) as [last|]; [|exact I].
      destruct E as [E|(l & [= <-] & E)]; [discriminate | exact E].
    + left. split; [reflexivity|]. apply lookup_insert_ne. exact Hne.
  - left. split; reflexivity.
Qed.

Lemma throttle_exec_spaced_kept ops : forall self u,
  spaced (min_interval self) (last_message_time self !! u) (accepted self ops u) /\
  last_message_time (exec self ops) !! u =
    kept (last_message_time self !! u) (accepted self ops u).
Proof.
  induction ops as [|o ops IH]; intros self u; simpl; [split; [exact I | reflexivity]|].
  pose proof (throttle_step_cases self o u) as Hstep.
  pose proof (throttle_step_min_interval self o) as Hmin.
  destruct (step self o) as [r self'] eqn:E. simpl in *.
  destruct (IH self' u) as [Hs Hk]. rewrite Hmin in Hs.
  destruct Hstep as [[Hlog Hsame]|(now & now' & Hlog & Hnew & Hgap)]; rewrite Hlog.
  - simpl. rewrite <- Hsame. split; assumption.
  - rewrite Hnew in Hs, Hk. split.
    + simpl. split; assumption.
    + rewrite Hk. unfold kept. simpl. symmetry. apply last_cons_any.
Qed.

(** X17.  A throttling limiter never drops an entry: after any sequence
    of calls the timestamp kept for an identity is the first reading of
    its latest accepted [record_message], or the one kept before when
    none was accepted; an identity that had an entry still has one. *)
Theorem throttling_keeps_latest_accepted
    (self : ThrottlingRateLimiter.t) (ops : list op) (user_id : string) :
  last_message_time (exec self ops) !! user_id =
    kept (last_message_time self !! user_id) (accepted self ops user_id) /\
  (is_Some (last_message_time self !! user_id) ->
   is_Some (last_message_time (exec self ops) !! user_id)).
Proof.
  destruct (throttle_exec_spaced_kept ops self user_id) as [_ Hk].
  split; [exact Hk|]. rewrite Hk. intros [x Hx]. rewrite Hx. unfold kept.
  generalize (accepted self ops user_id). intros calls. clear.
  revert x. induction calls as [|c calls IH]; intros x; [eexists; reflexivity|].
  change (is_Some (List.last (Some (fst c) :: List.map (fun c0 : Q * Q => Some (fst c0)) calls)
                     (Some x))).
  rewrite last_cons_any. apply IH.
Qed.

Lemma throttling_keeps_latest_accepted_witness :
  is_Some (last_message_time
             (exec th_one_at_0 [RecordMessage "u" 5 5; RecordMessage "u" 12 12]) !! "u").
Proof.
  apply (proj2 (throttling_keeps_latest_accepted th_one_at_0
                  [RecordMessage "u" 5 5; RecordMessage "u" 12 12] "u")).
  vm_compute. eexists. reflexivity.
Defined.

End ThrottlingRuns.

(** ** The driver [test_rate_limiter] *)

Section SlidingDemo.
Import SlidingWindowRateLimiter Demo.
Variable clock : nat -> Q.

Lemma monotone_le (a b : nat) : monotone clock -> (a <= b)%nat -> clock a <= clock b.
Proof.
  intros Hm Hab. induction Hab as [|b Hab IH]; [lra|].
  apply Qle_trans with (clock b); [exact IH | apply Hm].
Qed.

(** A turn never raises; its line and its limiter in terms of the two
    calls it makes. *)
Lemma sliding_turn_eq k limiter message_id :
  sliding_turn clock k limiter message_id =
  let user_id := user_of message_id in
  let recorded := record_message limiter user_id (clock k) (clock (k + 1)%nat) in
  let pruned := _cleanup_window (snd recorded) user_id (clock (k + 2)%nat) in
  Returned (mk_line message_id user_id
              (if fst recorded then Sent
               else Wait (wait_of pruned user_id (clock (k + 2)%nat))),
            pruned).
Proof.
  unfold sliding_turn.
  destruct (record_message limiter (user_of message_id) (clock k) (clock (k + 1)%nat))
    as [result limiter1].
  rewrite time_until_next_allowed_eq. reflexivity.
Qed.

Lemma sliding_turn_other k limiter message_id line limiter' v :
  sliding_turn clock k limiter message_id = Returned (line, limiter') ->
  v <> user_of message_id ->
  user_windows limiter' !! v = user_windows limiter !! v.
Proof.
  rewrite sliding_turn_eq. simpl. intros [= _ <-] Hne.
  rewrite cleanup_lookup_ne by congruence.
  apply record_message_other. congruence.
Qed.

Lemma sliding_turn_config k limiter message_id line limiter' :
  sliding_turn clock k limiter message_id = Returned (line, limiter') ->
  window_size limiter' = window_size limiter /\
  max_requests limiter' = max_requests limiter /\
  Demo.message_id line = message_id /\
  Demo.user_id line = user_of message_id.
Proof.
  rewrite sliding_turn_eq. simpl. intros [= <- <-].
  rewrite cleanup_window_size, cleanup_max_requests.
  destruct (record_message_config limiter (user_of message_id) (clock k) (clock (k + 1)%nat))
    as [Hw Hm].
  repeat split; assumption.
Qed.

(** A turn for an identity without entry: the message is shown as sent,
    and the identity is left with its timestamp alone unless the
    timestamp has expired when the waiting time is asked. *)
Lemma sliding_turn_fresh k limiter message_id line limiter' :
  user_windows limiter !! user_of message_id = None ->
  sliding_turn clock k limiter message_id = Returned (line, limiter') ->
  shown line = Sent /\
  (clock (k + 2)%nat - window_size limiter < clock k ->
   user_windows limiter' !! user_of message_id = Some [clock k]).
Proof.
  intros Hnone. rewrite sliding_turn_eq. simpl.
  rewrite record_message_eq. simpl.
  assert (Hc1 : _cleanup_window limiter (user_of message_id) (clock k) = limiter).
  { unfold _cleanup_window. rewrite Hnone. reflexivity. }
  rewrite Hc1.
  assert (Hc2 : _cleanup_window limiter (user_of message_id) (clock (k + 1)%nat) = limiter).
  { unfold _cleanup_window. rewrite Hnone. reflexivity. }
  rewrite Hc2.
  assert (Hu : under_limit limiter (user_of message_id) = true).
  { unfold under_limit. rewrite Hnone. reflexivity. }
  rewrite Hu. simpl. intros [= <- <-]. split; [reflexivity|].
  intros Hlive. rewrite cleanup_lookup. simpl.
  rewrite window_of_set_insert.
  destruct (decide (user_of message_id = user_of message_id)) as [_|Hn]; [|contradiction].
  unfold window_of. rewrite Hnone. simpl.
  assert (E : Qle_bool (clock k) (clock (k + 2)%nat - window_size limiter) = false)
    by (apply Qle_bool_false; exact Hlive).
  rewrite E. reflexivity.
Qed.

(** A turn for an identity whose single timestamp is unexpired at the
    three readings, on a limiter with a quota of one: the message is
    refused, the time to wait is shown, every entry stays. *)
Lemma sliding_turn_full k limiter message_id line limiter' stamp :
  max_requests limiter = 1%Z ->
  user_windows limiter !! user_of message_id = Some [stamp] ->
  clock k - window_size limiter < stamp ->
  clock (k + 1)%nat - window_size limiter < stamp ->
  clock (k + 2)%nat - window_size limiter < stamp ->
  sliding_turn clock k limiter message_id = Returned (line, limiter') ->
  shown line = Wait (stamp + window_size limiter - clock (k + 2)%nat) /\
  (forall v, user_windows limiter' !! v = user_windows limiter !! v).
Proof.
  intros HM Hl H0 H1 H2. rewrite sliding_turn_eq. simpl.
  set (u := user_of message_id) in *.
  assert (Hkeep : forall self c,
            window_size self = window_size limiter ->
            user_windows self !! u = Some [stamp] ->
            c - window_size limiter < stamp ->
            user_windows (_cleanup_window self u c) !! u = Some [stamp]).
  { intros self c Hw Hs Hc. rewrite cleanup_lookup, Hw. unfold window_of. rewrite Hs.
    rewrite popleft_while_keep by exact Hc. reflexivity. }
  pose proof (Hkeep limiter (clock k) eq_refl Hl H0) as Ha.
  pose proof (Hkeep _ (clock (k + 1)%nat) (cleanup_window_size limiter u (clock k)) Ha H1) as Hb.
  rewrite record_message_eq. simpl.
  assert (Hu : under_limit
                 (_cleanup_window (_cleanup_window limiter u (clock k)) u (clock (k + 1)%nat))
                 u = false).
  { unfold under_limit. rewrite Hb, !cleanup_max_requests, HM. reflexivity. }
  rewrite Hu. simpl.
  assert (Hw2 : window_size
                  (_cleanup_window (_cleanup_window limiter u (clock k)) u (clock (k + 1)%nat))
                = window_size limiter) by (rewrite !cleanup_window_size; reflexivity).
  pose proof (Hkeep _ (clock (k + 2)%nat) Hw2 Hb H2) as Hc.
  intros [= <- <-]. simpl. split.
  - f_equal. unfold wait_of. rewrite Hc, !cleanup_max_requests, HM, !cleanup_window_size.
    simpl. apply py_max_pos. lra.
  - intros v. destruct (decide (u = v)) as [<-|Hne].
    + rewrite Hc, Hl. reflexivity.
    + rewrite !cleanup_lookup_ne by exact Hne. reflexivity.
Qed.

End SlidingDemo.

Section SlidingDemoSeries.
Import SlidingWindowRateLimiter Demo.
Variable clock : nat -> Q.
#[local] Arguments Nat.mul : simpl never.

Lemma sliding_series_app k limiter a b :
  sliding_series clock k limiter (a ++ b) =
  match sliding_series clock k limiter a with
  | Raised e => Raised e
  | Returned (la, limiter1) =>
      match sliding_series clock (k + 3 * length a) limiter1 b with
      | Raised e => Raised e
      | Returned (lb, limiter2) => Returned (la ++ lb, limiter2)
      end
  end.
Proof.
  revert k limiter. induction a as [|id a IH]; intros k limiter; simpl.
  - replace (k + 3 * 0)%nat with k by lia.
    destruct (sliding_series clock k limiter b) as [[lb l2]|e]; reflexivity.
  - destruct (sliding_turn clock k limiter id) as [[ln l1]|e]; [|reflexivity].
    rewrite IH.
    replace (k + 3 * S (length a))%nat with (k + 3 + 3 * length a)%nat by lia.
    destruct (sliding_series clock (k + 3) l1 a) as [[la l2]|e]; [|reflexivity].
    destruct (sliding_series clock _ l2 b) as [[lb l3]|e]; reflexivity.
Qed.

(** A series never raises and shows one line per message, in order. *)
Lemma sliding_series_shape ids : forall k limiter,
  exists lines limiter',
    sliding_series clock k limiter ids = Returned (lines, limiter') /\
    List.map message_id lines = ids /\
    List.map user_id lines = List.map user_of ids /\
    window_size limiter' = window_size limiter /\
    max_requests limiter' = max_requests limiter.
Proof.
  induction ids as [|id ids IH]; intros k limiter; simpl.
  - exists [], limiter. repeat split; reflexivity.
  - pose proof (sliding_turn_eq clock k limiter id) as Hturn. simpl in Hturn.
    rewrite Hturn.
    pose proof (sliding_turn_config clock k limiter id _ _ Hturn) as (Hw & Hm & Hid & Hu).
    destruct (IH (k + 3)%nat
                (_cleanup_window
                   (snd (record_message limiter (user_of id) (clock k) (clock (k + 1)%nat)))
                   (user_of id) (clock (k + 2)%nat)))
      as (lines & l' & Hs & Hids & Hus & Hw' & Hm').
    rewrite Hs. eexists. eexists. split; [reflexivity|]. simpl.
    rewrite Hids, Hus. simpl in Hid, Hu.
    repeat split; congruence.
Qed.

Lemma sliding_series_fresh ids : forall k limiter lines limiter',
  NoDup (List.map user_of ids) ->
  (forall id, In id ids -> user_windows limiter !! user_of id = None) ->
  sliding_series clock k limiter ids = Returned (lines, limiter') ->
  Forall (fun ln => shown ln = Sent) lines /\
  (forall v, ~ In v (List.map user_of ids) ->
     user_windows limiter' !! v = user_windows limiter !! v) /\
  ((forall j, (j < length ids)%nat ->
      clock (k + 3 * j + 2)%nat - window_size limiter < clock (k + 3 * j)%nat) ->
   forall j id, nth_error ids j = Some id ->
     user_windows limiter' !! user_of id = Some [clock (k + 3 * j)%nat]).
Proof.
  induction ids as [|id ids IH]; intros k limiter lines limiter' Hnd Hfresh; simpl.
  - intros [= <- <-]. split; [constructor|]. split; [reflexivity|].
    intros _ j id Hj. destruct j; discriminate.
  - destruct (sliding_turn clock k limiter id) as [[ln l1]|e] eqn:Hturn; [|discriminate].
    destruct (sliding_series clock (k + 3) l1 ids) as [[lns l2]|e] eqn:Hs; [|discriminate].
    intros [= <- <-].
    inversion Hnd as [|? ? Hnotin0 Hnd']; subst.
    assert (Hnotin : ~ In (user_of id) (List.map user_of ids)).
    { intros Hin. apply Hnotin0. apply list_elem_of_In. exact Hin. }
    clear Hnotin0.
    assert (Hfresh1 : forall id', In id' ids -> user_windows l1 !! user_of id' = None).
    { intros id' Hin.
      rewrite (sliding_turn_other clock k limiter id ln l1 (user_of id') Hturn).
      - apply Hfresh. right. exact Hin.
      - intros Heq. apply Hnotin. rewrite <- Heq. apply in_map. exact Hin. }
    destruct (IH (k + 3)%nat l1 lns l2 Hnd' Hfresh1 Hs) as (Hsent & Hother & Hstamp).
    destruct (sliding_turn_fresh clock k limiter id ln l1 (Hfresh id (or_introl eq_refl)) Hturn)
      as [Hln Hkeep].
    destruct (sliding_turn_config clock k limiter id ln l1 Hturn) as (Hw & _).
    split; [constructor; assumption|]. split.
    + intros v Hv. simpl in Hv.
      rewrite Hother by tauto.
      apply (sliding_turn_other clock k limiter id ln l1 v Hturn).
      intros Heq. apply Hv. left. symmetry. exact Heq.
    + intros Hlive j id' Hj. destruct j as [|j]; simpl in Hj.
      * injection Hj as <-.
        rewrite Hother by exact Hnotin.
        replace (k + 3 * 0)%nat with k by lia. apply Hkeep.
        specialize (Hlive 0%nat).
        replace (k + 3 * 0 + 2)%nat with (k + 2)%nat in Hlive by lia.
        replace (k + 3 * 0)%nat with k in Hlive by lia.
        apply Hlive. simpl. lia.
      * replace (k + 3 * S j)%nat with (k + 3 + 3 * j)%nat by lia.
        apply Hstamp; [|exact Hj].
        intros j' Hj'. rewrite Hw.
        specialize (Hlive (S j')).
        replace (k + 3 * S j' + 2)%nat with (k + 3 + 3 * j' + 2)%nat in Hlive by lia.
        replace (k + 3 * S j')%nat with (k + 3 + 3 * j')%nat in Hlive by lia.
        apply Hlive. simpl. lia.
Qed.

Lemma sliding_series_full ids : forall k limiter lines limiter',
  max_requests limiter = 1%Z ->
  (forall id, In id ids ->
     exists stamp,
       user_windows limiter !! user_of id = Some [stamp] /\
       forall n, (k <= n < k + 3 * length ids)%nat ->
         clock n - window_size limiter < stamp /\ stamp <= clock n) ->
  sliding_series clock k limiter ids = Returned (lines, limiter') ->
  Forall (fun ln => exists wait,
            shown ln = Wait wait /\ 0 < wait /\ wait <= window_size limiter) lines /\
  (forall v, user_windows limiter' !! v = user_windows limiter !! v).
Proof.
  induction ids as [|id ids IH]; intros k limiter lines limiter' HM Hfull; simpl.
  - intros [= <- <-]. split; [constructor | reflexivity].
  - destruct (sliding_turn clock k limiter id) as [[ln l1]|e] eqn:Hturn; [|discriminate].
    destruct (sliding_series clock (k + 3) l1 ids) as [[lns l2]|e] eqn:Hs; [|discriminate].
    intros [= <- <-].
    destruct (Hfull id (or_introl eq_refl)) as (stamp & Hl & Hb).
    simpl in Hb.
    destruct (sliding_turn_full clock k limiter id ln l1 stamp HM Hl) as [Hln Hsame];
      try exact Hturn; try (apply Hb; lia).
    destruct (sliding_turn_config clock k limiter id ln l1 Hturn) as (Hw & Hm & _).
    destruct (IH (k + 3)%nat l1 lns l2) as [Hlns Hsame2]; [congruence | | exact Hs |].
    { intros id' Hin. destruct (Hfull id' (or_intror Hin)) as (s' & Hl' & Hb').
      exists s'. rewrite Hsame, Hw. split; [exact Hl'|].
      intros n Hn. apply Hb'. simpl. lia. }
    split.
    + constructor.
      * eexists. split; [exact Hln|].
        destruct (Hb (k + 2)%nat) as [H1 H2]; [lia|]. split; lra.
      * rewrite <- Hw. exact Hlns.
    + intros v. rewrite Hsame2. apply Hsame.
Qed.

End SlidingDemoSeries.

Section SlidingDemoRun.
Import SlidingWindowRateLimiter Demo.

Lemma demo_users_distinct : NoDup (List.map user_of [1; 2; 3; 4; 5]%nat).
Proof. apply (bool_decide_unpack _). vm_compute. exact I. Qed.

Lemma firstn_app_exact {A : Type} (n : nat) (l1 l2 : list A) :
  length l1 = n -> firstn n (l1 ++ l2) = l1.
Proof.
  intros <-. rewrite List.firstn_app, List.firstn_all, Nat.sub_diag. simpl.
  apply app_nil_r.
Qed.

Lemma skipn_app_exact {A : Type} (n : nat) (l1 l2 : list A) :
  length l1 = n -> skipn n (l1 ++ l2) = l2.
Proof.
  intros <-. rewrite List.skipn_app, List.skipn_all, Nat.sub_diag. reflexivity.
Qed.

Lemma map_length_eq {A B : Type} (f : A -> B) (l : list A) (l' : list B) :
  List.map f l = l' -> length l = length l'.
Proof. intros <-. symmetry. apply List.length_map. Qed.

(** The run of [test_rate_limiter] split in three parts: messages 1 to
    5, messages 6 to 10, and the second series. *)
Lemma test_rate_limiter_parts (clock : nat -> Q) :
  exists la l1 lb l2 lc l3,
    sliding_series clock 0 (mk 10 1 ∅) [1; 2; 3; 4; 5]%nat = Returned (la, l1) /\
    sliding_series clock 15 l1 [6; 7; 8; 9; 10]%nat = Returned (lb, l2) /\
    sliding_series clock 30 l2 (seq 11 10) = Returned (lc, l3) /\
    test_rate_limiter clock = Returned ((la ++ lb) ++ lc) /\
    length la = 5%nat /\ length lb = 5%nat /\
    List.map message_id ((la ++ lb) ++ lc) = seq 1 20 /\
    List.map user_id ((la ++ lb) ++ lc) = List.map user_of (seq 1 20) /\
    window_size l1 = 10 /\ max_requests l1 = 1%Z.
Proof.
  destruct (sliding_series_shape clock [1; 2; 3; 4; 5]%nat 0 (mk 10 1 ∅))
    as (la & l1 & Ha & Hia & Hua & Hwa & Hma).
  destruct (sliding_series_shape clock [6; 7; 8; 9; 10]%nat 15 l1)
    as (lb & l2 & Hb & Hib & Hub & Hwb & Hmb).
  destruct (sliding_series_shape clock (seq 11 10) 30 l2)
    as (lc & l3 & Hc & Hic & Huc & Hwc & Hmc).
  exists la, l1, lb, l2, lc, l3.
  split; [exact Ha|]. split; [exact Hb|]. split; [exact Hc|]. split.
  - unfold test_rate_limiter, __init__.
    change (seq 1 10) with ([1; 2; 3; 4; 5] ++ [6; 7; 8; 9; 10])%nat.
    rewrite sliding_series_app, Ha.
    change (0 + 3 * length [1; 2; 3; 4; 5])%nat with 15%nat.
    rewrite Hb, Hc. reflexivity.
  - split; [apply (map_length_eq _ _ _ Hia)|].
    split; [apply (map_length_eq _ _ _ Hib)|].
    rewrite !List.map_app, Hia, Hib, Hic, Hua, Hub, Huc.
    repeat split; try reflexivity; assumption.
Qed.

(** X18.  [test_rate_limiter] never raises and shows twenty lines, for
    the messages 1 to 20 in order, the identity of message [n] being
    [str(n % 5 + 1)]; whatever the clock does, the first five messages,
    which come from five different identities, are shown as sent. *)
Theorem test_rate_limiter_lines (clock : nat -> Q) :
  exists lines,
    test_rate_limiter clock = Returned lines /\
    List.map message_id lines = seq 1 20 /\
    List.map user_id lines =
      ["2"; "3"; "4"; "5"; "1"; "2"; "3"; "4"; "5"; "1";
       "2"; "3"; "4"; "5"; "1"; "2"; "3"; "4"; "5"; "1"] /\
    Forall (fun ln => shown ln = Sent) (firstn 5 lines).
Proof.
  destruct (test_rate_limiter_parts clock)
    as (la & l1 & lb & l2 & lc & l3 & Ha & Hb & Hc & Hrun & Hna & Hnb & Hids & Hus & _).
  exists ((la ++ lb) ++ lc).
  split; [exact Hrun|]. split; [exact Hids|]. split; [exact Hus|].
  rewrite <- app_assoc, (firstn_app_exact 5 la _ Hna).
  apply (sliding_series_fresh clock [1; 2; 3; 4; 5]%nat 0 (mk 10 1 ∅) la l1).
  - exact demo_users_distinct.
  - intros id _. simpl. apply lookup_empty.
  - exact Ha.
Qed.

End SlidingDemoRun.

(** ** The driver [test_throttling_limiter] *)

Section ThrottlingDemo.
Import ThrottlingRateLimiter Demo.
Variable clock : nat -> Q.
#[local] Arguments Nat.mul : simpl never.

Lemma throttling_turn_other k limiter message_id v :
  v <> user_of message_id ->
  last_message_time (snd (throttling_turn clock k limiter message_id)) !! v =
  last_message_time limiter !! v.
Proof.
  intros Hne. unfold throttling_turn.
  pose proof (throttling_record_other limiter (user_of message_id) v
                (clock k) (clock (k + 1)%nat)) as H.
  destruct (ThrottlingRateLimiter.record_message limiter (user_of message_id)
              (clock k) (clock (k + 1)%nat)) as [result l1].
  simpl in *. apply H. congruence.
Qed.

Lemma throttling_turn_config k limiter message_id :
  min_interval (snd (throttling_turn clock k limiter message_id)) = min_interval limiter /\
  Demo.message_id (fst (throttling_turn clock k limiter message_id)) = message_id /\
  Demo.user_id (fst (throttling_turn clock k limiter message_id)) = user_of message_id.
Proof.
  unfold throttling_turn, ThrottlingRateLimiter.record_message.
  destruct (ThrottlingRateLimiter.can_send_message limiter (user_of message_id)
              (clock (k + 1)%nat)); simpl; repeat split.
Qed.

(** A turn for an identity that is allowed at the reading of the check:
    shown as sent, and the first reading of the turn is kept. *)
Lemma throttling_turn_allowed k limiter message_id :
  (forall last_time,
     last_message_time limiter !! user_of message_id = Some last_time ->
     min_interval limiter <= clock (k + 1)%nat - last_time) ->
  shown (fst (throttling_turn clock k limiter message_id)) = Sent /\
  last_message_time (snd (throttling_turn clock k limiter message_id))
    !! user_of message_id = Some (clock k).
Proof.
  intros Hok.
  assert (Hc : ThrottlingRateLimiter.can_send_message limiter (user_of message_id)
                 (clock (k + 1)%nat) = true).
  { apply throttling_can_send_true.
    destruct (last_message_time limiter !! user_of message_id) as [last|];
      [|left; reflexivity].
    right. exists last. split; [reflexivity | apply Hok; reflexivity]. }
  unfold throttling_turn, ThrottlingRateLimiter.record_message. rewrite Hc. simpl.
  split; [reflexivity | apply lookup_insert_eq].
Qed.

(** A turn for an identity whose timestamp is too recent: refused, the
    time to wait is shown, the limiter stays as it is. *)
Lemma throttling_turn_refused k limiter message_id last_time :
  last_message_time limiter !! user_of message_id = Some last_time ->
  clock (k + 1)%nat - last_time < min_interval limiter ->
  clock (k + 2)%nat - last_time < min_interval limiter ->
  shown (fst (throttling_turn clock k limiter message_id)) =
    Wait (min_interval limiter - (clock (k + 2)%nat - last_time)) /\
  snd (throttling_turn clock k limiter message_id) = limiter.
Proof.
  intros Hl H1 H2.
  assert (Hc : ThrottlingRateLimiter.can_send_message limiter (user_of message_id)
                 (clock (k + 1)%nat) = false).
  { apply throttling_can_send_false. exists last_time. split; assumption. }
  unfold throttling_turn, ThrottlingRateLimiter.record_message. rewrite Hc. simpl.
  split; [|reflexivity].
  unfold ThrottlingRateLimiter.time_until_next_allowed. rewrite Hl.
  rewrite py_max_pos by lra. reflexivity.
Qed.

Lemma throttling_series_app k limiter a b :
  throttling_series clock k limiter (a ++ b) =
  let '(la, limiter1) := throttling_series clock k limiter a in
  let '(lb, limiter2) := throttling_series clock (k + 3 * length a) limiter1 b in
  (la ++ lb, limiter2).
Proof.
  revert k limiter. induction a as [|id a IH]; intros k limiter; simpl.
  - replace (k + 3 * 0)%nat with k by lia.
    destruct (throttling_series clock k limiter b) as [lb l2]. reflexivity.
  - destruct (throttling_turn clock k limiter id) as [ln l1].
    rewrite IH.
    replace (k + 3 * S (length a))%nat with (k + 3 + 3 * length a)%nat by lia.
    destruct (throttling_series clock (k + 3) l1 a) as [la l2].
    destruct (throttling_series clock _ l2 b) as [lb l3]. reflexivity.
Qed.

Lemma throttling_series_shape ids : forall k limiter,
  List.map message_id (fst (throttling_series clock k limiter ids)) = ids /\
  List.map user_id (fst (throttling_series clock k limiter ids)) = List.map user_of ids /\
  min_interval (snd (throttling_series clock k limiter ids)) = min_interval limiter.
Proof.
  induction ids as [|id ids IH]; intros k limiter; simpl; [repeat split|].
  destruct (throttling_turn_config k limiter id) as (Hm & Hid & Hu).
  destruct (throttling_turn clock k limiter id) as [ln l1]. simpl in *.
  destruct (IH (k + 3)%nat l1) as (Hids & Hus & Hm').
  destruct (throttling_series clock (k + 3) l1 ids) as [lns l2]. simpl in *.
  repeat split; congruence.
Qed.

Lemma throttling_series_sent ids : forall k limiter,
  NoDup (List.map user_of ids) ->
  (forall id last_time, In id ids ->
     last_message_time limiter !! user_of id = Some last_time ->
     forall n, (k <= n)%nat -> min_interval limiter <= clock n - last_time) ->
  Forall (fun ln => shown ln = Sent) (fst (throttling_series clock k limiter ids)) /\
  (forall v, ~ In v (List.map user_of ids) ->
     last_message_time (snd (throttling_series clock k limiter ids)) !! v =
     last_message_time limiter !! v) /\
  (forall j id, nth_error ids j = Some id ->
     last_message_time (snd (throttling_series clock k limiter ids)) !! user_of id =
     Some (clock (k + 3 * j)%nat)).
Proof.
  induction ids as [|id ids IH]; intros k limiter Hnd Hok; simpl.
  - split; [constructor|]. split; [reflexivity|]. intros j id Hj. destruct j; discriminate.
  - inversion Hnd as [|? ? Hnotin0 Hnd']; subst.
    assert (Hnotin : ~ In (user_of id) (List.map user_of ids)).
    { intros Hin. apply Hnotin0. apply list_elem_of_In. exact Hin. }
    clear Hnotin0.
    destruct (throttling_turn_allowed k limiter id) as [Hsent Hkept].
    { intros last Hl. apply (Hok id last); [left; reflexivity | exact Hl | lia]. }
    pose proof (throttling_turn_other k limiter id) as Hoth.
    destruct (throttling_turn_config k limiter id) as (Hm & _).
    destruct (throttling_turn clock k limiter id) as [ln l1]. simpl in *.
    destruct (IH (k + 3)%nat l1 Hnd') as (Hlns & Hother & Hstamp).
    { intros id' last Hin Hl n Hn. rewrite Hm.
      rewrite Hoth in Hl.
      - apply (Hok id' last); [right; exact Hin | exact Hl | lia].
      - intros Heq. apply Hnotin. rewrite <- Heq. apply in_map. exact Hin. }
    destruct (throttling_series clock (k + 3) l1 ids) as [lns l2]. simpl in *.
    split; [constructor; assumption|]. split.
    + intros v Hv. rewrite Hother by tauto. apply Hoth.
      intros Heq. apply Hv. left. symmetry. exact Heq.
    + intros j id' Hj. destruct j as [|j]; simpl in Hj.
      * injection Hj as <-. rewrite Hother by exact Hnotin.
        replace (k + 3 * 0)%nat with k by lia. exact Hkept.
      * replace (k + 3 * S j)%nat with (k + 3 + 3 * j)%nat by lia.
        apply Hstamp. exact Hj.
Qed.

Lemma throttling_series_refused ids : forall k limiter,
  (forall id, In id ids ->
     exists last_time,
       last_message_time limiter !! user_of id = Some last_time /\
       forall n, (k <= n < k + 3 * length ids)%nat ->
         clock n - last_time < min_interval limiter /\ last_time <= clock n) ->
  Forall (fun ln => exists wait,
            shown ln = Wait wait /\ 0 < wait /\ wait <= min_interval limiter)
    (fst (throttling_series clock k limiter ids)) /\
  snd (throttling_series clock k limiter ids) = limiter.
Proof.
  induction ids as [|id ids IH]; intros k limiter Hfull; simpl.
  - split; [constructor | reflexivity].
  - destruct (Hfull id (or_introl eq_refl)) as (last & Hl & Hb). simpl in Hb.
    destruct (throttling_turn_refused k limiter id last Hl) as [Hln Hsame];
      try (apply Hb; lia).
    destruct (throttling_turn clock k limiter id) as [ln l1]. simpl in *. subst l1.
    destruct (IH (k + 3)%nat limiter) as [Hlns Hsame2].
    { intros id' Hin. destruct (Hfull id' (or_intror Hin)) as (s' & Hl' & Hb').
      exists s'. split; [exact Hl'|]. intros n Hn. apply Hb'. simpl. lia. }
    destruct (throttling_series clock (k + 3) limiter ids) as [lns l2]. simpl in *.
    split; [|exact Hsame2].
    constructor; [|exact Hlns].
    eexists. split; [exact Hln|].
    destruct (Hb (k + 2)%nat) as [H1 H2]; [lia|]. split; lra.
Qed.

(** Every timestamp kept after a series was kept before it or is a
    reading made during it. *)
Lemma throttling_series_entries ids : forall k limiter v last_time,
  last_message_time (snd (throttling_series clock k limiter ids)) !! v = Some last_time ->
  last_message_time limiter !! v = Some last_time \/
  exists j, (k <= j < k + 3 * length ids)%nat /\ last_time = clock j.
Proof.
  induction ids as [|id ids IH]; intros k limiter v last; simpl; [tauto|].
  assert (Hturn : forall s,
            last_message_time (snd (throttling_turn clock k limiter id)) !! v = Some s ->
            last_message_time limiter !! v = Some s \/ s = clock k).
  { intros s. unfold throttling_turn, ThrottlingRateLimiter.record_message.
    destruct (ThrottlingRateLimiter.can_send_message limiter (user_of id)
                (clock (k + 1)%nat)); simpl; [|tauto].
    rewrite lookup_insert. destruct (decide (user_of id = v)); [|tauto].
    intros [= <-]. right. reflexivity. }
  destruct (throttling_turn clock k limiter id) as [ln l1]. simpl in *.
  specialize (IH (k + 3)%nat l1 v last).
  destruct (throttling_series clock (k + 3) l1 ids) as [lns l2]. simpl in *.
  intros Hl. destruct (IH Hl) as [H|(j & Hj & ->)].
  - destruct (Hturn last H) as [H'| ->]; [left; exact H'|].
    right. exists k. split; [lia | reflexivity].
  - right. exists j. split; [lia | reflexivity].
Qed.

End ThrottlingDemo.

Section ThrottlingDemoRun.
Import ThrottlingRateLimiter Demo.

Lemma demo_users_distinct_second : NoDup (List.map user_of [11; 12; 13; 14; 15]%nat).
Proof. apply (bool_decide_unpack _). vm_compute. exact I. Qed.

(** The run of [test_throttling_limiter] split in four parts of five
    messages. *)
Lemma test_throttling_limiter_parts (clock : nat -> Q) :
  let l0 := ThrottlingRateLimiter.mk 10 ∅ in
  let a := throttling_series clock 0 l0 [1; 2; 3; 4; 5]%nat in
  let b := throttling_series clock 15 (snd a) [6; 7; 8; 9; 10]%nat in
  let c := throttling_series clock 30 (snd b) [11; 12; 13; 14; 15]%nat in
  let d := throttling_series clock 45 (snd c) [16; 17; 18; 19; 20]%nat in
  test_throttling_limiter clock =
    Returned ((fst a ++ fst b) ++ (fst c ++ fst d)) /\
  length (fst a) = 5%nat /\ length (fst b) = 5%nat /\ length (fst c) = 5%nat /\
  List.map message_id ((fst a ++ fst b) ++ (fst c ++ fst d)) = seq 1 20 /\
  List.map user_id ((fst a ++ fst b) ++ (fst c ++ fst d)) = List.map user_of (seq 1 20) /\
  min_interval (snd a) = 10 /\ min_interval (snd b) = 10.
Proof.
  intros l0 a b c d.
  destruct (throttling_series_shape clock [1; 2; 3; 4; 5]%nat 0 l0) as (Hia & Hua & Hma).
  destruct (throttling_series_shape clock [6; 7; 8; 9; 10]%nat 15 (snd a)) as (Hib & Hub & Hmb).
  destruct (throttling_series_shape clock [11; 12; 13; 14; 15]%nat 30 (snd b))
    as (Hic & Huc & Hmc).
  destruct (throttling_series_shape clock [16; 17; 18; 19; 20]%nat 45 (snd c))
    as (Hid & Hud & Hmd).
  fold a in Hia, Hua, Hma. fold b in Hib, Hub, Hmb.
  fold c in Hic, Huc, Hmc. fold d in Hid, Hud, Hmd.
  split.
  - unfold test_throttling_limiter, ThrottlingRateLimiter.__init__.
    change (seq 1 10) with ([1; 2; 3; 4; 5] ++ [6; 7; 8; 9; 10])%nat.
    change (seq 11 10) with ([11; 12; 13; 14; 15] ++ [16; 17; 18; 19; 20])%nat.
    rewrite throttling_series_app.
    change (0 + 3 * length [1; 2; 3; 4; 5])%nat with 15%nat.
    clear. subst d c b a l0.
    destruct (throttling_series clock 0 (ThrottlingRateLimiter.mk 10 ∅) [1; 2; 3; 4; 5]%nat)
      as [la l1].
    cbv beta iota delta [fst snd].
    destruct (throttling_series clock 15 l1 [6; 7; 8; 9; 10]%nat) as [lb l2].
    cbv beta iota delta [fst snd].
    rewrite throttling_series_app.
    change (30 + 3 * length [11; 12; 13; 14; 15])%nat with 45%nat.
    destruct (throttling_series clock 30 l2 [11; 12; 13; 14; 15]%nat) as [lc l3].
    cbv beta iota delta [fst snd].
    destruct (throttling_series clock 45 l3 [16; 17; 18; 19; 20]%nat) as [ld l4].
    reflexivity.
  - split; [apply (map_length_eq _ _ _ Hia)|].
    split; [apply (map_length_eq _ _ _ Hib)|].
    split; [apply (map_length_eq _ _ _ Hic)|].
    rewrite !List.map_app, Hia, Hib, Hic, Hid, Hua, Hub, Huc, Hud, Hmb, Hma.
    repeat split; reflexivity.
Qed.

(** X20.  [test_throttling_limiter] shows twenty lines, for the messages
    1 to 20 in order, the identity of message [n] being
    [str(n % 5 + 1)]; whatever the clock does, the first five messages
    are shown as sent. *)
Theorem test_throttling_limiter_lines (clock : nat -> Q) :
  exists lines,
    test_throttling_limiter clock = Returned lines /\
    List.map message_id lines = seq 1 20 /\
    List.map user_id lines =
      ["2"; "3"; "4"; "5"; "1"; "2"; "3"; "4"; "5"; "1";
       "2"; "3"; "4"; "5"; "1"; "2"; "3"; "4"; "5"; "1"] /\
    Forall (fun ln => shown ln = Sent) (firstn 5 lines).
Proof.
  destruct (test_throttling_limiter_parts clock)
    as (Hrun & Hna & _ & _ & Hids & Hus & _).
  eexists. split; [exact Hrun|]. split; [exact Hids|]. split; [exact Hus|].
  rewrite <- app_assoc, (firstn_app_exact 5 _ _ Hna).
  apply (throttling_series_sent clock [1; 2; 3; 4; 5]%nat 0).
  - exact demo_users_distinct.
  - intros id last _ Hl. simpl in Hl. rewrite lookup_empty in Hl. discriminate.
Qed.

(** X22.  [test_throttling_limiter] under a clock that never goes back:
    when the pause between the two series lasts ten seconds or more (it
    is [time.sleep(10)]), the first five messages of the second series,
    11 to 15, are all shown as sent. *)
Theorem test_throttling_limiter_after_pause (clock : nat -> Q) :
  monotone clock ->
  clock 29%nat + 10 <= clock 30%nat ->
  exists lines,
    test_throttling_limiter clock = Returned lines /\
    Forall (fun ln => shown ln = Sent) (firstn 5 (skipn 10 lines)).
Proof.
  intros Hmono Hpause.
  destruct (test_throttling_limiter_parts clock)
    as (Hrun & Hna & Hnb & Hnc & _ & _ & Hma & Hmb).
  eexists. split; [exact Hrun|].
  rewrite (skipn_app_exact 10 _ _), (firstn_app_exact 5 _ _ Hnc)
    by (rewrite length_app, Hna, Hnb; reflexivity).
  apply (throttling_series_sent clock [11; 12; 13; 14; 15]%nat 30).
  - exact demo_users_distinct_second.
  - intros id last _ Hl n Hn. rewrite Hmb.
    assert (Hold : last <= clock 29%nat).
    { apply throttling_series_entries in Hl. cbn [length] in Hl.
      destruct Hl as [Hl|(j & Hj & ->)]; [|apply monotone_le; [exact Hmono | lia]].
      apply throttling_series_entries in Hl. cbn [length] in Hl.
      destruct Hl as [Hl|(j & Hj & ->)]; [|apply monotone_le; [exact Hmono | lia]].
      cbn [last_message_time] in Hl. rewrite lookup_empty in Hl. discriminate. }
    pose proof (monotone_le clock 30 n Hmono Hn). lra.
Qed.

Lemma test_throttling_limiter_after_pause_witness :
  exists lines,
    test_throttling_limiter
      (fun k => if (k <? 30)%nat then Z.of_nat k # 4 else (Z.of_nat k # 4) + 10)
      = Returned lines /\
    Forall (fun ln => shown ln = Sent) (firstn 5 (skipn 10 lines)).
Proof.
  apply (test_throttling_limiter_after_pause
           (fun k => if (k <? 30)%nat then Z.of_nat k # 4 else (Z.of_nat k # 4) + 10)).
  - intros k. destruct (k <? 30)%nat eqn:E1; destruct (S k <? 30)%nat eqn:E2.
    + unfold Qle. simpl. lia.
    + assert (H : Z.of_nat k # 4 <= Z.of_nat (S k) # 4) by (unfold Qle; simpl; lia). lra.
    + apply Nat.ltb_lt in E2. apply Nat.ltb_ge in E1. lia.
    + assert (H : Z.of_nat k # 4 <= Z.of_nat (S k) # 4) by (unfold Qle; simpl; lia). lra.
  - vm_compute. discriminate.
Defined.

End ThrottlingDemoRun.


(** * Properties in binary64 arithmetic *)

(** ** The order of binary64 numbers *)

Section Float64Order.
Import Float64.

Lemma SFleb_trans (a b c : SpecFloat.spec_float) :
  SpecFloat.SFleb a b = true -> SpecFloat.SFleb b c = true -> SpecFloat.SFleb a c = true.
Proof.
  unfold SpecFloat.SFleb, SpecFloat.SFcompare.
  destruct a as [sa|sa| |sa ma ea], b as [sb|sb| |sb mb eb], c as [sc|sc| |sc mc ec];
    try discriminate; try reflexivity;
    repeat match goal with s : bool |- _ => destruct s end;
    try discriminate; try reflexivity;
    fold (Pos.compare ma mb); fold (Pos.compare mb mc); fold (Pos.compare ma mc);
    destruct (Z.compare_spec ea eb), (Z.compare_spec eb ec), (Z.compare_spec ea ec);
    try discriminate; try reflexivity; try lia; subst;
    destruct (Pos.compare_spec ma mb), (Pos.compare_spec mb mc), (Pos.compare_spec ma mc);
    simpl; try discriminate; try reflexivity; try lia.
Qed.

Lemma SFcompare_refl (a : SpecFloat.spec_float) :
  a <> SpecFloat.S754_nan -> SpecFloat.SFcompare a a = Some Eq.
Proof.
  destruct a as [s|s| |s m e]; intros H; try contradiction; simpl.
  - reflexivity.
  - destruct s; reflexivity.
  - rewrite Z.compare_refl. fold (Pos.compare m m). rewrite Pos.compare_refl.
    destruct s; reflexivity.
Qed.

(** When neither side is a NaN, [a <= b] fails exactly when [b < a]. *)
Lemma SFleb_false_ltb (a b : SpecFloat.spec_float) :
  a <> SpecFloat.S754_nan -> b <> SpecFloat.S754_nan ->
  SpecFloat.SFleb a b = false -> SpecFloat.SFltb b a = true.
Proof.
  unfold SpecFloat.SFleb, SpecFloat.SFltb, SpecFloat.SFcompare.
  destruct a as [sa|sa| |sa ma ea], b as [sb|sb| |sb mb eb]; intros Ha Hb;
    try contradiction;
    repeat match goal with s : bool |- _ => destruct s end;
    try discriminate; try reflexivity;
    fold (Pos.compare ma mb); fold (Pos.compare mb ma);
    rewrite (Z.compare_antisym ea eb), (Pos.compare_antisym ma mb);
    destruct (Z.compare ea eb); simpl; try discriminate; try reflexivity;
    destruct (Pos.compare ma mb); simpl; try discriminate; reflexivity.
Qed.

Lemma is_nan_false (a : PrimFloat.float) :
  PrimFloat.is_nan a = false <-> FloatOps.Prim2SF a <> SpecFloat.S754_nan.
Proof.
  unfold PrimFloat.is_nan. rewrite FloatAxioms.eqb_spec. unfold SpecFloat.SFeqb.
  split.
  - intros H Hn. rewrite Hn in H. discriminate.
  - intros H. rewrite (SFcompare_refl _ H). reflexivity.
Qed.

Lemma le_trans (a b c : PrimFloat.float) : le a b -> le b c -> le a c.
Proof. unfold le. rewrite !FloatAxioms.leb_spec. apply SFleb_trans. Qed.

Lemma eqb_le (a b : PrimFloat.float) : PrimFloat.eqb a b = true -> le a b.
Proof.
  unfold le. rewrite FloatAxioms.eqb_spec, FloatAxioms.leb_spec.
  unfold SpecFloat.SFeqb, SpecFloat.SFleb.
  destruct (SpecFloat.SFcompare _ _) as [[| |]|]; intros H; try discriminate; reflexivity.
Qed.

Lemma leb_false_ltb (a b : PrimFloat.float) :
  PrimFloat.is_nan a = false -> PrimFloat.is_nan b = false ->
  PrimFloat.leb a b = false -> PrimFloat.ltb b a = true.
Proof.
  rewrite !is_nan_false, FloatAxioms.leb_spec, FloatAxioms.ltb_spec.
  apply SFleb_false_ltb.
Qed.

Lemma ltb_false_le (a b : PrimFloat.float) :
  PrimFloat.is_nan a = false -> PrimFloat.is_nan b = false ->
  PrimFloat.ltb a b = false -> le b a.
Proof.
  intros Ha Hb H. unfold le.
  destruct (PrimFloat.leb b a) eqn:E; [reflexivity|].
  rewrite (leb_false_ltb b a Hb Ha E) in H. discriminate.
Qed.

(** [max(wait, 0.0)] is never negative, and is at least zero unless it
    is a NaN. *)
Lemma py_max_not_negative (w : PrimFloat.float) :
  PrimFloat.ltb (py_max w PrimFloat.zero) PrimFloat.zero = false /\
  (PrimFloat.is_nan (py_max w PrimFloat.zero) = false ->
   le PrimFloat.zero (py_max w PrimFloat.zero)).
Proof.
  unfold py_max. destruct (PrimFloat.ltb w PrimFloat.zero) eqn:E.
  - split; [reflexivity | intros _; reflexivity].
  - split; [exact E|]. intros Hn. apply ltb_false_le; [exact Hn | reflexivity | exact E].
Qed.

End Float64Order.

(** ** Rounding never makes a NaN of finite numbers *)

Section Float64NotNaN.
Variables prec emax : Z.

Lemma shr_1_nonneg mrs :
  (0 <= SpecFloat.shr_m mrs)%Z -> (0 <= SpecFloat.shr_m (SpecFloat.shr_1 mrs))%Z.
Proof.
  destruct mrs as [m r s]. simpl.
  destruct m as [|p|p]; simpl; intros H; try lia.
  destruct p; simpl; lia.
Qed.

Lemma iter_shr_1_nonneg p : forall mrs,
  (0 <= SpecFloat.shr_m mrs)%Z ->
  (0 <= SpecFloat.shr_m (SpecFloat.iter_pos SpecFloat.shr_1 p mrs))%Z.
Proof.
  induction p as [p IH|p IH|]; intros mrs H; simpl.
  - apply IH, IH, shr_1_nonneg, H.
  - apply IH, IH, H.
  - apply shr_1_nonneg, H.
Qed.

Lemma shr_fexp_nonneg m e l :
  (0 <= m)%Z ->
  (0 <= SpecFloat.shr_m (fst (SpecFloat.shr_fexp prec emax m e l)))%Z.
Proof.
  intros H. unfold SpecFloat.shr_fexp, SpecFloat.shr.
  assert (H0 : (0 <= SpecFloat.shr_m (SpecFloat.shr_record_of_loc m l))%Z).
  { destruct l as [|[| |]]; simpl; exact H. }
  destruct (_ - e)%Z; simpl; try exact H0.
  apply iter_shr_1_nonneg, H0.
Qed.

Lemma binary_round_aux_not_nan sx mx ex lx :
  (0 <= mx)%Z ->
  SpecFloat.binary_round_aux prec emax sx mx ex lx <> SpecFloat.S754_nan.
Proof.
  intros H. unfold SpecFloat.binary_round_aux.
  pose proof (shr_fexp_nonneg mx ex lx H) as H1.
  destruct (SpecFloat.shr_fexp prec emax mx ex lx) as [mrs' e'].
  simpl in H1.
  assert (H2 : (0 <= SpecFloat.round_nearest_even (SpecFloat.shr_m mrs')
                        (SpecFloat.loc_of_shr_record mrs'))%Z).
  { unfold SpecFloat.round_nearest_even.
    destruct (SpecFloat.loc_of_shr_record mrs') as [|[| |]]; try lia.
    destruct (Z.even _); lia. }
  pose proof (shr_fexp_nonneg _ e' SpecFloat.loc_Exact H2) as H3.
  destruct (SpecFloat.shr_fexp prec emax _ e' SpecFloat.loc_Exact) as [mrs'' e''].
  simpl in H3.
  destruct (SpecFloat.shr_m mrs'') as [|p|p]; try discriminate; [|lia].
  destruct (Z.leb _ _); discriminate.
Qed.

Lemma binary_normalize_not_nan m e szero :
  SpecFloat.binary_normalize prec emax m e szero <> SpecFloat.S754_nan.
Proof.
  unfold SpecFloat.binary_normalize, SpecFloat.binary_round.
  destruct m as [|p|p]; try discriminate;
    destruct (SpecFloat.shl_align _ _ _) as [mz ez];
    apply binary_round_aux_not_nan; lia.
Qed.

End Float64NotNaN.

Section Float64Finite.
Import Float64.

(** A finite float is a zero or a number with a mantissa. *)
Lemma is_finite_spec (a : PrimFloat.float) :
  PrimFloat.is_finite a = true ->
  (exists s, FloatOps.Prim2SF a = SpecFloat.S754_zero s) \/
  (exists s m e, FloatOps.Prim2SF a = SpecFloat.S754_finite s m e).
Proof.
  unfold PrimFloat.is_finite, PrimFloat.is_infinity. intros H.
  apply negb_true_iff, orb_false_iff in H. destruct H as [Hn Hi].
  apply is_nan_false in Hn.
  rewrite FloatAxioms.eqb_spec, FloatAxioms.abs_spec in Hi.
  destruct (FloatOps.Prim2SF a) as [s|s| |s m e].
  - left. exists s. reflexivity.
  - exfalso. revert Hi. vm_compute. discriminate.
  - contradiction.
  - right. exists s, m, e. reflexivity.
Qed.

(** [(a + b) - c] of three finite floats is a number (it may be an
    infinity). *)
Lemma sub_add_finite_not_nan (a b c : PrimFloat.float) :
  PrimFloat.is_finite a = true -> PrimFloat.is_finite b = true ->
  PrimFloat.is_finite c = true ->
  PrimFloat.is_nan (PrimFloat.sub (PrimFloat.add a b) c) = false.
Proof.
  intros Ha Hb Hc. apply is_nan_false.
  rewrite FloatAxioms.sub_spec, FloatAxioms.add_spec.
  apply is_finite_spec in Ha, Hb, Hc.
  unfold FloatAxioms.SF64sub, FloatAxioms.SF64add.
  assert (Hadd : SpecFloat.SFadd FloatOps.prec FloatOps.emax
                   (FloatOps.Prim2SF a) (FloatOps.Prim2SF b) <> SpecFloat.S754_nan).
  { destruct Ha as [[sa ->]|(sa & ma & ea & ->)], Hb as [[sb ->]|(sb & mb & eb & ->)];
      simpl; try discriminate.
    - destruct sa, sb; discriminate.
    - apply binary_normalize_not_nan. }
  destruct (SpecFloat.SFadd FloatOps.prec FloatOps.emax
              (FloatOps.Prim2SF a) (FloatOps.Prim2SF b)) as [sr|sr| |sr mr er];
    [| | contradiction |];
    destruct Hc as [[sc ->]|(sc & mc & ec & ->)]; simpl; try discriminate.
  - destruct sr, sc; discriminate.
  - apply binary_normalize_not_nan.
Qed.

End Float64Finite.

(** ** The sliding window in binary64 arithmetic *)

Section Float64SlidingWindow.
Import Float64 Float64.SlidingWindowRateLimiter.

Lemma f64_popleft_while_head cutoff window x rest :
  popleft_while cutoff window = x :: rest -> PrimFloat.leb x cutoff = false.
Proof.
  induction window as [|y w IH]; simpl; [discriminate|].
  destruct (PrimFloat.leb y cutoff) eqn:E; [exact IH|].
  intros [= -> _]. exact E.
Qed.

Lemma f64_popleft_while_split cutoff window :
  exists popped,
    window = popped ++ popleft_while cutoff window /\
    Forall (fun x => le x cutoff) popped.
Proof.
  induction window as [|y w [popped [Heq Hall]]]; simpl.
  - exists []. split; [reflexivity | constructor].
  - destruct (PrimFloat.leb y cutoff) eqn:E.
    + exists (y :: popped). split.
      * simpl. f_equal. exact Heq.
      * constructor; [exact E | exact Hall].
    + exists []. split; [reflexivity | constructor].
Qed.

(** On a deque in non-decreasing order the loop removes exactly the
    timestamps that are [<= cutoff]. *)
Lemma f64_popleft_while_sorted cutoff window :
  sorted window -> popleft_while cutoff window = unexpired cutoff window.
Proof.
  unfold sorted, unexpired.
  induction 1 as [|y w Hs IH Hall]; simpl; [reflexivity|].
  destruct (PrimFloat.leb y cutoff) eqn:E; simpl; [exact IH|].
  f_equal. clear IH Hs.
  induction Hall as [|z w Hz Hall IH]; simpl; [reflexivity|].
  assert (Ez : PrimFloat.leb z cutoff = false).
  { destruct (PrimFloat.leb z cutoff) eqn:Ez; [|reflexivity].
    rewrite (le_trans y z cutoff Hz Ez) in E. discriminate. }
  rewrite Ez. simpl. f_equal. exact IH.
Qed.

Lemma f64_popleft_while_sorted_inv cutoff window :
  sorted window -> sorted (popleft_while cutoff window).
Proof.
  unfold sorted. induction 1 as [|y w Hs IH Hall]; simpl; [constructor|].
  destruct (PrimFloat.leb y cutoff); [exact IH | constructor; assumption].
Qed.

Lemma f64_popleft_while_Forall (P : PrimFloat.float -> Prop) cutoff window :
  Forall P window -> Forall P (popleft_while cutoff window).
Proof.
  induction 1 as [|y w Hy Hall IH]; simpl; [constructor|].
  destruct (PrimFloat.leb y cutoff); [exact IH | constructor; assumption].
Qed.

Lemma f64_cleanup_window_size self u c :
  window_size (_cleanup_window self u c) = window_size self.
Proof.
  unfold _cleanup_window. destruct (user_windows self !! u); [|reflexivity].
  destruct (popleft_while _ _); reflexivity.
Qed.

Lemma f64_cleanup_max_requests self u c :
  max_requests (_cleanup_window self u c) = max_requests self.
Proof.
  unfold _cleanup_window. destruct (user_windows self !! u); [|reflexivity].
  destruct (popleft_while _ _); reflexivity.
Qed.

Lemma f64_cleanup_lookup self u c :
  user_windows (_cleanup_window self u c) !! u =
  match popleft_while (PrimFloat.sub c (window_size self)) (window_of self u) with
  | [] => None
  | window => Some window
  end.
Proof.
  unfold _cleanup_window, window_of.
  destruct (user_windows self !! u) as [w|] eqn:E; simpl.
  - destruct (popleft_while _ w) as [|x r]; simpl.
    + apply lookup_delete_eq.
    + apply lookup_insert_eq.
  - exact E.
Qed.

Lemma f64_cleanup_lookup_ne self u v c :
  u <> v ->
  user_windows (_cleanup_window self u c) !! v = user_windows self !! v.
Proof.
  intros Hne. unfold _cleanup_window.
  destruct (user_windows self !! u) as [w|]; [|reflexivity].
  destruct (popleft_while _ w); simpl.
  - apply lookup_delete_ne. exact Hne.
  - apply lookup_insert_ne. exact Hne.
Qed.

Lemma f64_cleanup_window_of self u c :
  window_of (_cleanup_window self u c) u =
  popleft_while (PrimFloat.sub c (window_size self)) (window_of self u).
Proof.
  unfold window_of at 1. rewrite f64_cleanup_lookup.
  destruct (popleft_while _ _); reflexivity.
Qed.

Lemma f64_cleanup_window_of_ne self u v c :
  u <> v -> window_of (_cleanup_window self u c) v = window_of self v.
Proof.
  intros Hne. unfold window_of. rewrite f64_cleanup_lookup_ne by exact Hne. reflexivity.
Qed.

Lemma f64_cleanup_lookup_Some self u c window :
  user_windows (_cleanup_window self u c) !! u = Some window ->
  exists oldest rest,
    window = oldest :: rest /\
    PrimFloat.leb oldest (PrimFloat.sub c (window_size self)) = false.
Proof.
  rewrite f64_cleanup_lookup.
  destruct (popleft_while _ _) as [|x r] eqn:E; [discriminate|].
  intros [= <-]. exists x, r. split; [reflexivity|].
  eapply f64_popleft_while_head. exact E.
Qed.

Lemma f64_can_send_message_eq self u now :
  can_send_message self u now =
  (match user_windows (_cleanup_window self u now) !! u with
   | None => true
   | Some window => (len window <? max_requests self)%Z
   end, _cleanup_window self u now).
Proof.
  unfold can_send_message. rewrite f64_cleanup_max_requests.
  destruct (user_windows _ !! u); [|reflexivity].
  destruct (_ <? _)%Z; reflexivity.
Qed.

Lemma f64_time_until_next_allowed_snd self u now :
  snd (time_until_next_allowed self u now) = _cleanup_window self u now.
Proof.
  unfold time_until_next_allowed.
  destruct (user_windows _ !! u) as [w|]; [|reflexivity].
  destruct (_ <? _)%Z; [reflexivity|]. destruct w; reflexivity.
Qed.

End Float64SlidingWindow.

Section Float64SlidingWindowClaims.
Import Float64 Float64.SlidingWindowRateLimiter.

(** C3.  On a limiter with [max_requests >= 1] whose deque for
    [user_id] is in arrival order (non-decreasing),
    [can_send_message user_id] leaves for [user_id] exactly the
    timestamps [t] for which [t <= now - window_size] is false, the
    difference being the float the code computes; so a timestamp equal to
    the cutoff is removed and one that remains is strictly greater.  It
    touches no other identity, drops the identity when nothing remains,
    and returns [True] if and only if the number of remaining timestamps
    is strictly less than [max_requests]. *)
Theorem can_send_message_prunes_then_counts
    (self : t) (user_id : string) (now : PrimFloat.float) :
  (0 < max_requests self)%Z ->
  sorted (window_of self user_id) ->
  let cutoff := PrimFloat.sub now (window_size self) in
  let remaining := unexpired cutoff (window_of self user_id) in
  let result := fst (can_send_message self user_id now) in
  let self' := snd (can_send_message self user_id now) in
  window_of self' user_id = remaining /\
  (forall x, In x remaining <->
             In x (window_of self user_id) /\ PrimFloat.leb x cutoff = false) /\
  (forall x, In x (window_of self user_id) ->
             PrimFloat.eqb x cutoff = true -> ~ In x remaining) /\
  (forall x, In x remaining ->
             PrimFloat.is_nan x = false -> PrimFloat.is_nan cutoff = false ->
             PrimFloat.ltb cutoff x = true) /\
  (result = true <-> (len remaining < max_requests self)%Z) /\
  (remaining = [] -> user_windows self' !! user_id = None) /\
  (forall other, other <> user_id ->
     user_windows self' !! other = user_windows self !! other).
Proof.
  intros HM Hs cutoff remaining result self'.
  subst result self'. rewrite f64_can_send_message_eq. simpl.
  assert (Hw : window_of (_cleanup_window self user_id now) user_id = remaining).
  { rewrite f64_cleanup_window_of. apply f64_popleft_while_sorted. exact Hs. }
  assert (Hin : forall x, In x remaining <->
            In x (window_of self user_id) /\ PrimFloat.leb x cutoff = false).
  { intros x. subst remaining. unfold unexpired. rewrite List.filter_In.
    rewrite negb_true_iff. reflexivity. }
  split; [exact Hw|]. split; [exact Hin|]. split; [|split; [|split; [|split]]].
  - intros x _ He Hr. apply Hin in Hr. destruct Hr as [_ Hr].
    rewrite (eqb_le x cutoff He) in Hr. discriminate.
  - intros x Hr Hx Hc. apply Hin in Hr. destruct Hr as [_ Hr].
    apply leb_false_ltb; assumption.
  - rewrite <- Hw. unfold window_of.
    destruct (user_windows (_cleanup_window self user_id now) !! user_id) as [w|].
    + apply Z.ltb_lt.
    + unfold len. simpl. split; [intros _; lia | reflexivity].
  - intros He. rewrite f64_cleanup_lookup.
    rewrite f64_popleft_while_sorted by exact Hs. fold cutoff. fold remaining.
    rewrite He. reflexivity.
  - intros other Hne. apply f64_cleanup_lookup_ne. congruence.
Qed.

Lemma can_send_message_prunes_then_counts_witness :
  window_of (snd (can_send_message sw_tenth "u" f10)) "u" = [] /\
  fst (can_send_message sw_tenth "u" f10) = true /\
  window_of (snd (can_send_message sw_three "u" f10)) "u"
    = [f5; f7] /\
  fst (can_send_message sw_three "u" f10) = false.
Proof.
  assert (HM : (0 < max_requests sw_tenth)%Z) by (simpl; lia).
  assert (Hs : sorted (window_of sw_tenth "u")).
  { vm_compute. repeat constructor. }
  destruct (can_send_message_prunes_then_counts sw_tenth "u" f10 HM Hs)
    as (Hw & _ & _ & _ & Hr & _).
  assert (HM3 : (0 < max_requests sw_three)%Z) by (simpl; lia).
  assert (Hs3 : sorted (window_of sw_three "u")).
  { vm_compute. repeat constructor; reflexivity. }
  destruct (can_send_message_prunes_then_counts sw_three "u" f10 HM3 Hs3)
    as (Hw3 & _ & _ & _ & Hr3 & _).
  split; [rewrite Hw; vm_compute; reflexivity|].
  split; [apply Hr; vm_compute; reflexivity|].
  split; [rewrite Hw3; vm_compute; reflexivity|].
  destruct (fst (can_send_message sw_three "u" f10)); [|reflexivity].
  exfalso. assert (Ht : true = true) by reflexivity.
  apply Hr3 in Ht. vm_compute in Ht. discriminate.
Defined.

(** C5.  [time_until_next_allowed user_id] prunes the deque of the
    identity at the cutoff [now - window_size] (on a deque in arrival
    order: it removes exactly the timestamps [<=] the cutoff) and
    returns; it never raises.  When the pruned store has no entry for
    [user_id], or fewer than [max_requests] timestamps, the result is
    [0.0]; otherwise it is [max(oldest + window_size - now, 0.0)], as the
    code computes it, where [oldest] is the first remaining timestamp,
    which is the smallest one when the deque is in arrival order.  The
    result is never negative: it is at least zero whenever it is a
    number, and it is a number whenever the reading, the window size and
    the stored timestamps are finite. *)
Theorem time_until_next_allowed_value
    (self : t) (user_id : string) (now : PrimFloat.float) :
  let cutoff := PrimFloat.sub now (window_size self) in
  let pruned := _cleanup_window self user_id now in
  exists wait,
    time_until_next_allowed self user_id now = (Returned wait, pruned) /\
    window_of pruned user_id = popleft_while cutoff (window_of self user_id) /\
    (sorted (window_of self user_id) ->
     window_of pruned user_id = unexpired cutoff (window_of self user_id)) /\
    (forall other, other <> user_id ->
       user_windows pruned !! other = user_windows self !! other) /\
    PrimFloat.ltb wait PrimFloat.zero = false /\
    (PrimFloat.is_nan wait = false -> le PrimFloat.zero wait) /\
    (PrimFloat.is_finite now = true ->
     PrimFloat.is_finite (window_size self) = true ->
     Forall (fun x => PrimFloat.is_finite x = true) (window_of self user_id) ->
     le PrimFloat.zero wait) /\
    (user_windows pruned !! user_id = None \/
     (len (window_of pruned user_id) < max_requests self)%Z -> wait = PrimFloat.zero) /\
    (forall window,
       user_windows pruned !! user_id = Some window ->
       (max_requests self <= len window)%Z ->
       exists oldest rest,
         window = oldest :: rest /\
         wait = py_max (PrimFloat.sub (PrimFloat.add oldest (window_size self)) now)
                  PrimFloat.zero /\
         (sorted (window_of self user_id) -> Forall (le oldest) rest)).
Proof.
  intros cutoff pruned.
  assert (Hprune : window_of pruned user_id = popleft_while cutoff (window_of self user_id)).
  { apply f64_cleanup_window_of. }
  assert (Hsorted : sorted (window_of self user_id) ->
            window_of pruned user_id = unexpired cutoff (window_of self user_id)).
  { intros Hs. rewrite Hprune. apply f64_popleft_while_sorted. exact Hs. }
  assert (Hother : forall other, other <> user_id ->
            user_windows pruned !! other = user_windows self !! other).
  { intros other Hne. apply f64_cleanup_lookup_ne. congruence. }
  unfold time_until_next_allowed. fold pruned.
  assert (Hm : max_requests pruned = max_requests self) by apply f64_cleanup_max_requests.
  assert (Hw : window_size pruned = window_size self) by apply f64_cleanup_window_size.
  destruct (user_windows pruned !! user_id) as [window|] eqn:E.
  - assert (Hwo : window_of pruned user_id = window)
      by (unfold window_of; rewrite E; reflexivity).
    pose proof E as E'. apply f64_cleanup_lookup_Some in E'.
    destruct E' as (oldest & rest & -> & Hold). rewrite Hm, Hw.
    destruct (len (oldest :: rest) <? max_requests self)%Z eqn:EL.
    + apply Z.ltb_lt in EL. exists PrimFloat.zero.
      split; [reflexivity|]. split; [exact Hprune|]. split; [exact Hsorted|].
      split; [exact Hother|]. split; [reflexivity|]. split; [intros _; reflexivity|].
      split; [intros _ _ _; reflexivity|].
      split; [reflexivity|]. intros window [= <-] Hge. lia.
    + apply Z.ltb_ge in EL. eexists.
      split; [reflexivity|]. split; [exact Hprune|]. split; [exact Hsorted|].
      split; [exact Hother|].
      split; [apply py_max_not_negative|]. split; [apply py_max_not_negative|].
      split.
      { intros Hnow HW Hall.
        assert (Hfin : PrimFloat.is_finite oldest = true).
        { destruct (f64_popleft_while_split cutoff (window_of self user_id))
            as (popped & Heq & _).
          rewrite <- Hprune, Hwo in Heq. rewrite Heq in Hall.
          apply Forall_app in Hall. destruct Hall as [_ Hall].
          inversion Hall; assumption. }
        pose proof (sub_add_finite_not_nan oldest (window_size self) now Hfin HW Hnow)
          as Hnn.
        apply py_max_not_negative. unfold py_max.
        destruct (PrimFloat.ltb _ PrimFloat.zero); [reflexivity | exact Hnn]. }
      split; [rewrite Hwo; intros [H|H]; [discriminate | lia]|].
      intros window [= <-] _. exists oldest, rest.
      split; [reflexivity|]. split; [reflexivity|].
      intros Hs.
      assert (Hs' : sorted (oldest :: rest)).
      { rewrite <- Hwo, Hprune. apply f64_popleft_while_sorted_inv. exact Hs. }
      inversion Hs'; assumption.
  - exists PrimFloat.zero.
    split; [reflexivity|]. split; [exact Hprune|]. split; [exact Hsorted|].
    split; [exact Hother|]. split; [reflexivity|]. split; [intros _; reflexivity|].
    split; [intros _ _ _; reflexivity|].
    split; [reflexivity|]. intros window [=].
Qed.

Lemma time_until_next_allowed_value_witness :
  exists wait,
    time_until_next_allowed sw_three "u" f10 =
      (Returned wait, _cleanup_window sw_three "u" f10) /\
    window_of (_cleanup_window sw_three "u" f10) "u" = [f5; f7] /\
    wait = f5.
Proof.
  destruct (time_until_next_allowed_value sw_three "u" f10)
    as (wait & Heq & _ & Hs & _ & _ & _ & _ & _ & Hfull).
  exists wait. split; [exact Heq|]. split.
  - rewrite Hs; [vm_compute; reflexivity|]. vm_compute. repeat constructor; reflexivity.
  - destruct (Hfull [f5; f7]) as (oldest & rest & Hw & Hval & _).
    + vm_compute. reflexivity.
    + vm_compute. discriminate.
    + injection Hw as <- <-. rewrite Hval. vm_compute. reflexivity.
Defined.

End Float64SlidingWindowClaims.

(** ** Order of the deques in binary64 arithmetic *)

Section Float64Runs.
Import Float64 Float64.SlidingWindowRateLimiter.

Lemma f64_record_message_eq self u now now' :
  record_message self u now now' =
  let pruned := _cleanup_window (_cleanup_window self u now) u now' in
  if match user_windows pruned !! u with
     | None => true
     | Some window => (len window <? max_requests self)%Z
     end
  then (true, set_user_windows pruned
                (<[u := window_of pruned u ++ [now]]> (user_windows pruned)))
  else (false, pruned).
Proof.
  unfold record_message. rewrite f64_can_send_message_eq, f64_cleanup_max_requests.
  reflexivity.
Qed.

Lemma f64_window_of_set_insert self u v window :
  window_of (set_user_windows self (<[u := window]> (user_windows self))) v =
  if decide (u = v) then window else window_of self v.
Proof.
  unfold window_of. simpl. rewrite lookup_insert.
  destruct (decide (u = v)); reflexivity.
Qed.

Lemma f64_sorted_snoc (w : list PrimFloat.float) (x : PrimFloat.float) :
  sorted w -> Forall (fun y => le y x) w -> sorted (w ++ [x]).
Proof.
  unfold sorted. induction 1 as [|y w Hs IH Hall]; intros Hle; simpl.
  - constructor; constructor.
  - inversion Hle as [|? ? Hy Hw]; subst. constructor.
    + apply IH. exact Hw.
    + apply Forall_app. split; [exact Hall|]. constructor; [exact Hy | constructor].
Qed.

Lemma f64_not_after_weaken c c' self :
  le c c' -> not_after c self -> not_after c' self.
Proof.
  intros Hc H u. specialize (H u). revert H. apply List.Forall_impl.
  intros x Hx. apply (le_trans x c c'); assumption.
Qed.

Lemma f64_cleanup_sorted self u c :
  sorted_windows self -> sorted_windows (_cleanup_window self u c).
Proof.
  intros H v. destruct (decide (u = v)) as [<-|Hne].
  - rewrite f64_cleanup_window_of. apply f64_popleft_while_sorted_inv, H.
  - rewrite f64_cleanup_window_of_ne by exact Hne. apply H.
Qed.

Lemma f64_cleanup_not_after self u c c' :
  not_after c' self -> not_after c' (_cleanup_window self u c).
Proof.
  intros H v. destruct (decide (u = v)) as [<-|Hne].
  - rewrite f64_cleanup_window_of. apply f64_popleft_while_Forall, H.
  - rewrite f64_cleanup_window_of_ne by exact Hne. apply H.
Qed.

Lemma f64_step_sorted self o c :
  sorted_windows self -> not_after c self ->
  monotone_from c (readings_of o) ->
  exists c', sorted_windows (step self o) /\ not_after c' (step self o) /\
             forall rest, monotone_from (List.last (readings_of o) c) rest ->
                          monotone_from c' rest.
Proof.
  intros Hs Hc Hm. destruct o as [u now|u now now'|u now]; simpl in *.
  - exists now. rewrite f64_can_send_message_eq. simpl. split; [|split].
    + apply f64_cleanup_sorted, Hs.
    + apply f64_cleanup_not_after. apply (f64_not_after_weaken c); [tauto | exact Hc].
    + intros rest H; exact H.
  - exists now'. rewrite f64_record_message_eq. simpl.
    destruct Hm as (H1 & H2 & _).
    pose proof (f64_cleanup_sorted _ u now' (f64_cleanup_sorted _ u now Hs)) as Hs'.
    pose proof (f64_cleanup_not_after _ u now' c (f64_cleanup_not_after _ u now c Hc)) as Hc'.
    destruct (match user_windows _ !! u with None => true | Some _ => _ end); simpl.
    + split; [|split; [|intros rest H; exact H]];
        intros v; rewrite f64_window_of_set_insert; destruct (decide (u = v)) as [<-|Hne].
      * apply f64_sorted_snoc; [apply Hs'|].
        generalize (Hc' u). apply List.Forall_impl. intros x Hx.
        apply (le_trans x c now); assumption.
      * apply Hs'.
      * apply Forall_app. split.
        -- generalize (Hc' u). apply List.Forall_impl. intros x Hx.
           apply (le_trans x c now'); [exact Hx|]. apply (le_trans c now now'); assumption.
        -- constructor; [exact H2 | constructor].
      * generalize (Hc' v). apply List.Forall_impl. intros x Hx.
        apply (le_trans x c now'); [exact Hx|]. apply (le_trans c now now'); assumption.
    + split; [exact Hs'|]. split; [|intros rest H; exact H].
      apply (f64_not_after_weaken c); [|exact Hc'].
      apply (le_trans c now now'); assumption.
  - exists now. rewrite f64_time_until_next_allowed_snd. split; [|split].
    + apply f64_cleanup_sorted, Hs.
    + apply f64_cleanup_not_after. apply (f64_not_after_weaken c); [tauto | exact Hc].
    + intros rest H; exact H.
Qed.

Lemma f64_monotone_from_app c l1 l2 :
  monotone_from c (l1 ++ l2) ->
  monotone_from c l1 /\ monotone_from (List.last l1 c) l2.
Proof.
  revert c. induction l1 as [|x l1 IH]; intros c; simpl.
  - tauto.
  - intros [H1 H2]. destruct (IH x H2) as [H3 H4]. split; [tauto|].
    destruct l1 as [|y l1]; [exact H4|].
    rewrite (last_cons_any y l1 c) in *. rewrite (last_cons_any y l1 x) in H4. exact H4.
Qed.

Lemma f64_exec_sorted ops : forall self c,
  sorted_windows self -> not_after c self ->
  monotone_from c (readings ops) ->
  sorted_windows (exec self ops).
Proof.
  induction ops as [|o ops IH]; intros self c Hs Hc Hm; simpl; [exact Hs|].
  unfold readings in Hm. simpl in Hm. apply f64_monotone_from_app in Hm.
  destruct Hm as [Hm1 Hm2].
  destruct (f64_step_sorted self o c Hs Hc Hm1) as (c' & Hs' & Hc' & Hnext).
  apply (IH _ c' Hs' Hc'). apply Hnext. exact Hm2.
Qed.

(** Under a clock that never goes back, every deque of a limiter driven
    from its construction is in non-decreasing order: the hypothesis of
    the statements above about pruning is met by every state the code
    reaches. *)
Lemma f64_reachable_sorted (w : PrimFloat.float) (m : Z) (ops : list op) :
  monotone_clock (readings ops) ->
  sorted_windows (exec (mk w m ∅) ops).
Proof.
  intros Hm.
  assert (Hs0 : sorted_windows (mk w m ∅)).
  { intros u. unfold window_of. simpl. rewrite lookup_empty. constructor. }
  assert (Hc0 : forall c, not_after c (mk w m ∅)).
  { intros c u. unfold window_of. simpl. rewrite lookup_empty. constructor. }
  destruct (readings ops) as [|t0 rest] eqn:E.
  - apply (f64_exec_sorted ops _ PrimFloat.zero Hs0 (Hc0 _)). rewrite E. exact I.
  - apply (f64_exec_sorted ops _ t0 Hs0 (Hc0 _)). rewrite E. exact Hm.
Qed.

End Float64Runs.

(** ** Claims settled on the code as Python runs it *)

Section Float64Claims.
Import Float64.

(** C1.  The bound is broken when the clock moves between the two
    readings of one [record_message]: with [window_size = 10] and
    [max_requests = 1], a message recorded at time 0 and a second call
    that reads 9.5 itself (the timestamp it stores) while its nested
    [can_send_message] reads 10 (the cutoff 0 expires the first
    timestamp) are both accepted, although the two accepted timestamps 0
    and 9.5 both lie in the interval [(9.5 - 10, 9.5]]. *)
Theorem admission_bound_broken_by_second_reading :
  let limiter := SlidingWindowRateLimiter.mk f10 1 ∅ in
  let first := SlidingWindowRateLimiter.record_message limiter "u" PrimFloat.zero PrimFloat.zero in
  let second := SlidingWindowRateLimiter.record_message (snd first) "u" f9_5 f10 in
  fst first = true /\
  fst second = true /\
  window_of (snd first) "u" = [PrimFloat.zero] /\
  window_of (snd second) "u" = [f9_5] /\
  PrimFloat.ltb (PrimFloat.sub f9_5 f10) PrimFloat.zero = true /\
  PrimFloat.leb PrimFloat.zero f9_5 = true /\
  PrimFloat.ltb (PrimFloat.sub f9_5 f10) f9_5 = true /\
  PrimFloat.leb f9_5 f9_5 = true /\
  PrimFloat.leb PrimFloat.zero f9_5 = true /\ PrimFloat.leb f9_5 f10 = true.
Proof. vm_compute. repeat split; reflexivity. Qed.

(** C4.  [ThrottlingRateLimiter.can_send_message user_id] returns
    [True] if and only if the identity has no last-seen entry or
    [now - last_time >= min_interval], the difference being the float
    the code computes; an elapsed time equal to [min_interval] is
    allowed. *)
Theorem throttling_can_send_message_boundary
    (self : ThrottlingRateLimiter.t) (user_id : string) (now : PrimFloat.float) :
  (ThrottlingRateLimiter.can_send_message self user_id now = true <->
   (ThrottlingRateLimiter.last_message_time self !! user_id = None \/
    exists last_time,
      ThrottlingRateLimiter.last_message_time self !! user_id = Some last_time /\
      le (ThrottlingRateLimiter.min_interval self) (PrimFloat.sub now last_time))) /\
  (forall last_time,
     ThrottlingRateLimiter.last_message_time self !! user_id = Some last_time ->
     PrimFloat.eqb (PrimFloat.sub now last_time) (ThrottlingRateLimiter.min_interval self)
       = true ->
     ThrottlingRateLimiter.can_send_message self user_id now = true) /\
  (forall last_time,
     ThrottlingRateLimiter.last_message_time self !! user_id = Some last_time ->
     PrimFloat.ltb (PrimFloat.sub now last_time) (ThrottlingRateLimiter.min_interval self)
       = true ->
     ThrottlingRateLimiter.can_send_message self user_id now = false).
Proof.
  unfold ThrottlingRateLimiter.can_send_message, le.
  destruct (ThrottlingRateLimiter.last_message_time self !! user_id) as [last|].
  - split; [|split].
    + destruct (PrimFloat.leb _ _) eqn:E; split.
      * intros _. right. exists last. split; [reflexivity | exact E].
      * reflexivity.
      * discriminate.
      * intros [H|(l & [= <-] & H)]; [discriminate | congruence].
    + intros l [= <-] He.
      assert (Hle : le (ThrottlingRateLimiter.min_interval self) (PrimFloat.sub now last)).
      { unfold le. revert He.
        rewrite FloatAxioms.eqb_spec, FloatAxioms.leb_spec.
        unfold SpecFloat.SFeqb, SpecFloat.SFleb, SpecFloat.SFcompare.
        destruct (FloatOps.Prim2SF (PrimFloat.sub now last)) as [sa|sa| |sa ma ea],
                 (FloatOps.Prim2SF (ThrottlingRateLimiter.min_interval self))
                   as [sb|sb| |sb mb eb];
          try discriminate; try reflexivity;
          repeat match goal with s : bool |- _ => destruct s end;
          try discriminate; try reflexivity;
          fold (Pos.compare ma mb); fold (Pos.compare mb ma);
          rewrite (Z.compare_antisym ea eb), (Pos.compare_antisym ma mb);
          destruct (Z.compare ea eb); simpl; try discriminate;
          destruct (Pos.compare ma mb); simpl; try discriminate; reflexivity. }
      unfold le in Hle. rewrite Hle. reflexivity.
    + intros l [= <-] Hlt.
      destruct (PrimFloat.leb _ _) eqn:E; [|reflexivity]. exfalso. revert Hlt E.
      rewrite FloatAxioms.ltb_spec, FloatAxioms.leb_spec.
      unfold SpecFloat.SFltb, SpecFloat.SFleb, SpecFloat.SFcompare.
      destruct (FloatOps.Prim2SF (PrimFloat.sub now last)) as [sa|sa| |sa ma ea],
               (FloatOps.Prim2SF (ThrottlingRateLimiter.min_interval self))
                 as [sb|sb| |sb mb eb];
        try discriminate;
        repeat match goal with s : bool |- _ => destruct s end;
        try discriminate;
        fold (Pos.compare ma mb); fold (Pos.compare mb ma);
        rewrite (Z.compare_antisym ea eb), (Pos.compare_antisym ma mb);
        destruct (Z.compare ea eb); simpl; try discriminate;
        destruct (Pos.compare ma mb); simpl; discriminate.
  - split; [|split].
    + split; [intros _; left; reflexivity | reflexivity].
    + intros l [=].
    + intros l [=].
Qed.

Lemma throttling_can_send_message_boundary_witness :
  ThrottlingRateLimiter.can_send_message th_tie "u" f0_5 = true /\
  ThrottlingRateLimiter.can_send_message th_tie "u" f0_4 = false.
Proof.
  destruct (throttling_can_send_message_boundary th_tie "u" f0_5) as (_ & Heq & _).
  destruct (throttling_can_send_message_boundary th_tie "u" f0_4) as (_ & _ & Hlt).
  split.
  - apply (Heq f0_1); vm_compute; reflexivity.
  - apply (Hlt f0_1); vm_compute; reflexivity.
Defined.


(** C10 as stated fails on the sliding window: with [window_size = 1]
    and [max_requests = 1], after a message recorded at 0.2, at time 1.2
    [can_send_message] returns [False] (the cutoff 1.2 - 1 rounds below
    0.2) while [time_until_next_allowed] returns exactly [0.0]
    ((0.2 + 1) - 1.2 is zero). *)
Lemma can_send_iff_no_wait_counterexample :
  let limiter :=
    snd (SlidingWindowRateLimiter.record_message
           (SlidingWindowRateLimiter.mk f1 1 ∅) "u" f0_2 f0_2) in
  limiter = sw_unit /\
  fst (SlidingWindowRateLimiter.can_send_message limiter "u" f1_2) = false /\
  fst (SlidingWindowRateLimiter.time_until_next_allowed limiter "u" f1_2)
    = Returned PrimFloat.zero.
Proof. vm_compute. repeat split; reflexivity. Qed.

End Float64Claims.

Section AmendedClaims.
Import Run.



(** C10, amended.  On the same state at the same time, whenever
    [can_send_message] returns [True], [time_until_next_allowed] returns
    zero: for the sliding window as Python computes it (the value is
    the constant [0.0]), and for the throttling limiter, where the
    converse holds as well.  For the sliding window the converse is not
    claimed. *)
Theorem can_send_implies_no_wait :
  (forall (self : Float64.SlidingWindowRateLimiter.t) (user_id : string)
          (now : PrimFloat.float),
     fst (Float64.SlidingWindowRateLimiter.can_send_message self user_id now) = true ->
     fst (Float64.SlidingWindowRateLimiter.time_until_next_allowed self user_id now)
       = Returned PrimFloat.zero) /\
  (forall (self : ThrottlingRateLimiter.t) (user_id : string) (now : Q),
     ThrottlingRateLimiter.can_send_message self user_id now = true <->
     ThrottlingRateLimiter.time_until_next_allowed self user_id now == 0).
Proof.
  split.
  - intros self u now. rewrite f64_can_send_message_eq. simpl.
    unfold Float64.SlidingWindowRateLimiter.time_until_next_allowed.
    rewrite f64_cleanup_max_requests.
    destruct (Float64.SlidingWindowRateLimiter.user_windows
                (Float64.SlidingWindowRateLimiter._cleanup_window self u now) !! u)
      as [w|]; [|reflexivity].
    intros H. rewrite H. reflexivity.
  - intros self u now. symmetry. apply throttling_wait_zero.
Qed.

Lemma can_send_implies_no_wait_witness :
  fst (Float64.SlidingWindowRateLimiter.time_until_next_allowed
         Float64.sw_tenth "u" Float64.f10) = Returned PrimFloat.zero.
Proof.
  apply (proj1 can_send_implies_no_wait Float64.sw_tenth "u" Float64.f10).
  vm_compute. reflexivity.
Defined.

End AmendedClaims.

(** ** Further properties of the sliding window as Python runs it *)

Section Float64Extras.
Import Float64 Float64.SlidingWindowRateLimiter.

(** X2.  An accepted [record_message] prunes the deque of the identity
    at the cutoff of its own reading and then at the cutoff of the
    reading of the nested check (the cutoffs being the floats
    [now - window_size] the code computes) and appends its own reading at
    the back, once; it changes no other identity and not the
    configuration. *)
Theorem record_message_accepted_effect
    (self self' : t) (user_id : string) (now now' : PrimFloat.float) :
  record_message self user_id now now' = (true, self') ->
  window_of self' user_id =
    popleft_while (PrimFloat.sub now' (window_size self))
      (popleft_while (PrimFloat.sub now (window_size self)) (window_of self user_id))
    ++ [now] /\
  user_windows self' !! user_id = Some (window_of self' user_id) /\
  window_size self' = window_size self /\
  max_requests self' = max_requests self /\
  (forall other, other <> user_id ->
     user_windows self' !! other = user_windows self !! other).
Proof.
  rewrite f64_record_message_eq. simpl.
  destruct (match user_windows _ !! user_id with None => true | Some _ => _ end);
    [|discriminate].
  intros [= <-]. simpl.
  rewrite f64_window_of_set_insert, !f64_cleanup_window_of.
  destruct (decide (user_id = user_id)) as [_|Hn]; [|contradiction].
  rewrite !f64_cleanup_window_size, !f64_cleanup_max_requests.
  split; [reflexivity|]. split; [apply lookup_insert_eq|].
  split; [reflexivity|]. split; [reflexivity|].
  intros other Hne. rewrite lookup_insert_ne by congruence.
  rewrite !f64_cleanup_lookup_ne by congruence. reflexivity.
Qed.

Lemma record_message_accepted_effect_witness :
  window_of (snd (record_message sw_tenth "u" f10 f10)) "u" = [f10].
Proof.
  assert (Hr : record_message sw_tenth "u" f10 f10 =
               (true, snd (record_message sw_tenth "u" f10 f10))).
  { vm_compute. reflexivity. }
  destruct (record_message_accepted_effect sw_tenth _ "u" f10 f10 Hr) as (Hw & _).
  rewrite Hw. vm_compute. reflexivity.
Defined.

(** X6.  [can_send_message] and [time_until_next_allowed] only prune:
    both leave the same limiter, in which every deque is a tail of what
    it was, the timestamps removed being timestamps of the queried
    identity that are [<=] the cutoff [now - window_size] the code
    computes; an identity without entry still has none, and the
    configuration is the same. *)
Theorem checks_prune_expired_only (self : t) (user_id : string) (now : PrimFloat.float) :
  snd (time_until_next_allowed self user_id now) =
    snd (can_send_message self user_id now) /\
  let self' := snd (can_send_message self user_id now) in
  window_size self' = window_size self /\
  max_requests self' = max_requests self /\
  forall other,
    (exists popped,
       window_of self other = popped ++ window_of self' other /\
       (other <> user_id -> popped = []) /\
       Forall (fun x => le x (PrimFloat.sub now (window_size self))) popped) /\
    (user_windows self !! other = None -> user_windows self' !! other = None).
Proof.
  rewrite f64_can_send_message_eq, f64_time_until_next_allowed_snd. simpl.
  split; [reflexivity|].
  split; [apply f64_cleanup_window_size|]. split; [apply f64_cleanup_max_requests|].
  intros other. destruct (decide (user_id = other)) as [<-|Hne].
  - split.
    + rewrite f64_cleanup_window_of.
      destruct (f64_popleft_while_split (PrimFloat.sub now (window_size self))
                  (window_of self user_id)) as (popped & Heq & Hall).
      exists popped. split; [exact Heq|]. split; [intros H; contradiction | exact Hall].
    + intros Hn. rewrite f64_cleanup_lookup. unfold window_of. rewrite Hn. reflexivity.
  - split.
    + exists []. rewrite f64_cleanup_window_of_ne by exact Hne.
      split; [reflexivity|]. split; [reflexivity | constructor].
    + rewrite f64_cleanup_lookup_ne by exact Hne. intros H; exact H.
Qed.

Lemma checks_prune_expired_only_witness :
  exists popped,
    window_of sw_tenth "u" =
      popped ++ window_of (snd (can_send_message sw_tenth "u" f10)) "u" /\
    Forall (fun x => le x (PrimFloat.sub f10 (window_size sw_tenth))) popped.
Proof.
  destruct (proj2 (checks_prune_expired_only sw_tenth "u" f10)) as (_ & _ & H).
  destruct (proj1 (H "u")) as (popped & Heq & _ & Hall).
  exists popped. split; assumption.
Defined.

End Float64Extras.
